(** * Fidakune proposal analysis: a shallow embedding of
      [scripts/analyze_proposal.py] (class [ProposalAnalyzer]).

    Python values are modelled as follows.
    - A [str] is the list of its Unicode code points ([pystr]); [len] is
      [length], so the pronunciation symbol U+027E counts as one character.
    - Unbounded non-negative [int]s (lengths, indices, edit distances) are
      [nat].
    - The [float] similarity score is computed on exact rationals ([Q]);
      binary64 rounding is not modelled.
    - The status and recommendation strings are the enumerations [Status]
      and [Recommendation].
    - [self.analysis_results], which every analysis step mutates, is threaded
      explicitly as an [AnalysisResults] record. *)

From Stdlib Require Import List Arith Lia NArith ZArith Bool.
From Stdlib Require Import QArith Qminmax Qround.
From Stdlib Require Import Permutation Sorted Lqa.
From Stdlib Require String Ascii DecimalString.
Import String.StringSyntax.
Delimit Scope string_scope with string.
Import ListNotations.

Set Implicit Arguments.
Local Close Scope Q_scope.
Local Open Scope nat_scope.

(** ** Strings *)

Definition char := N.
Definition pystr := list char.

Definition char_eqb (a b : char) : bool := N.eqb a b.
Definition str_eqb (a b : pystr) : bool :=
  if list_eq_dec N.eq_dec a b then true else false.

(** [c in s] for a one-character [c]; also [x in set_of_characters]. *)
Definition char_in (c : char) (s : list char) : bool := existsb (char_eqb c) s.

(** [not s]: the empty string is the only false one. *)
Definition is_empty (s : pystr) : bool :=
  match s with [] => true | _ :: _ => false end.

(** [enumerate(l)], and the same starting from index [k]. *)
Definition enumerate_from {A} (k : nat) (l : list A) : list (nat * A) :=
  combine (seq k (length l)) l.
Definition enumerate {A} (l : list A) : list (nat * A) := enumerate_from 0 l.

(** A literal of the source, for its ASCII part; other characters are
    written as code points. *)
Definition lit (s : String.string) : pystr :=
  map Ascii.N_of_ascii (String.list_ascii_of_string s).
Arguments lit s%_string.

Definition hyphen : char := 45%N.
Definition newline : char := 10%N.

(** [str.lower()] on ASCII letters.  Code points above 127 are left as they
    are; the words that reach the checks are ASCII (see [analyze_proposal]). *)
Definition lower_char (c : char) : char :=
  if ((65 <=? c) && (c <=? 90))%N then (c + 32)%N else c.
Definition lower (s : pystr) : pystr := map lower_char s.

(** The characters [str.strip()] removes: Python's Unicode whitespace. *)
Definition is_space (c : char) : bool :=
  (((9 <=? c) && (c <=? 13)) || ((28 <=? c) && (c <=? 32))
   || (c =? 133) || (c =? 160) || (c =? 5760)
   || ((8192 <=? c) && (c <=? 8202))
   || (c =? 8232) || (c =? 8233) || (c =? 8239) || (c =? 8287)
   || (c =? 12288))%N.

Fixpoint lstrip (s : pystr) : pystr :=
  match s with
  | c :: s' => if is_space c then lstrip s' else s
  | [] => []
  end.
Definition rstrip (s : pystr) : pystr := rev (lstrip (rev s)).
Definition strip (s : pystr) : pystr := rstrip (lstrip s).

(** [s.replace('-', '')] *)
Definition remove_hyphens (s : pystr) : pystr :=
  filter (fun c => negb (char_eqb c hyphen)) s.

(** ['-' in s] *)
Definition has_hyphen (s : pystr) : bool := char_in hyphen s.

(** [s.split('-')]: the part before the first hyphen and the parts after. *)
Fixpoint split_hyphen_aux (s : pystr) : pystr * list pystr :=
  match s with
  | [] => ([], [])
  | c :: s' =>
      let (p, ps) := split_hyphen_aux s' in
      if char_eqb c hyphen then ([], p :: ps) else (c :: p, ps)
  end.
Definition split_hyphen (s : pystr) : list pystr :=
  let (p, ps) := split_hyphen_aux s in p :: ps.

(** [sep.join(l)] *)
Fixpoint join (sep : pystr) (l : list pystr) : pystr :=
  match l with
  | [] => []
  | [x] => x
  | x :: l' => x ++ sep ++ join sep l'
  end.

Fixpoint starts_with (pre s : pystr) : bool :=
  match pre, s with
  | [], _ => true
  | p :: pre', c :: s' => char_eqb p c && starts_with pre' s'
  | _ :: _, [] => false
  end.
Definition ends_with (suf s : pystr) : bool := starts_with (rev suf) (rev s).

(** [sub in s] for strings. *)
Fixpoint contains (sub s : pystr) : bool :=
  starts_with sub s ||
  match s with
  | [] => false
  | _ :: s' => contains sub s'
  end.

(** [x in l] for a collection of strings. *)
Definition str_in (x : pystr) (l : list pystr) : bool := existsb (str_eqb x) l.

(** [sorted(...)] of distinct elements, by insertion. *)
Fixpoint insert_sorted {A} (leb : A -> A -> bool) (x : A) (l : list A)
    : list A :=
  match l with
  | [] => [x]
  | y :: l' => if leb x y then x :: l else y :: insert_sorted leb x l'
  end.
Definition sorted {A} (leb : A -> A -> bool) (l : list A) : list A :=
  fold_right (insert_sorted leb) [] l.

(** String comparison [a <= b]: lexicographic on code points. *)
Fixpoint str_leb (a b : pystr) : bool :=
  match a, b with
  | [], _ => true
  | _ :: _, [] => false
  | x :: a', y :: b' => (x <? y)%N || ((x =? y)%N && str_leb a' b')
  end.

(** ** Data model *)

Module Status.
Inductive t := PENDING | PASS | WARNING | FAIL | ERROR.
End Status.

Module Recommendation.
Inductive t := PENDING | APPROVE | REVIEW | REJECT | ERROR.
End Recommendation.

(** One entry of [analysis_results]: [{'status': ..., 'messages': [...]}]. *)
Record CheckOutcome := {
  status : Status.t;
  messages : list pystr
}.

(** [self.analysis_results] *)
Record AnalysisResults := {
  phonotactics : CheckOutcome;
  lexicon_check : CheckOutcome;
  homophones : CheckOutcome;
  semantics : CheckOutcome;
  recommendation : Recommendation.t
}.

(** The state [__init__] sets up. *)
Definition pending : CheckOutcome :=
  {| status := Status.PENDING; messages := [] |}.
Definition initial_results : AnalysisResults :=
  {| phonotactics := pending; lexicon_check := pending;
     homophones := pending; semantics := pending;
     recommendation := Recommendation.PENDING |}.

(** A lexicon entry, as far as the analysis reads it: the ['definition'] and
    ['domain'] keys of the JSON object, each a string or absent. *)
Record Entry := {
  entry_definition : option pystr;
  entry_domain : option pystr
}.

(** [entry.get(key, 'unknown')] *)
Definition get_or_unknown (v : option pystr) : pystr :=
  match v with Some x => x | None => lit "unknown" end.

(** The attributes of a [ProposalAnalyzer] other than its results.  The
    lexicon is the [dict] as the list of its items in insertion order, with
    distinct keys; a Python [set] is listed without repetition. *)
Record ProposalAnalyzer := {
  lexicon : list (pystr * Entry);
  valid_phonemes : list char;
  valid_domains : list pystr;
  consonants : list char;
  vowels : list char;
  permitted_clusters : list pystr
}.

(** [self.lexicon[word]], [None] when [word not in self.lexicon]. *)
Fixpoint lexicon_get (lex : list (pystr * Entry)) (word : pystr)
    : option Entry :=
  match lex with
  | [] => None
  | (w, e) :: lex' => if str_eqb w word then Some e else lexicon_get lex' word
  end.

Definition in_lexicon (self : ProposalAnalyzer) (word : pystr) : bool :=
  match lexicon_get (lexicon self) word with Some _ => true | None => false end.

(** The tables [load_phonology] installs. *)
Definition phonology_consonants : list char :=
  lit "pbtdkgmnfshlrwj".
Definition phonology_vowels : list char := lit "aeiou".
Definition phonology_clusters : list pystr :=
  [lit "st"; lit "pl"; lit "pr"; lit "tr"; lit "sp"].

Definition load_phonology (self : ProposalAnalyzer) : ProposalAnalyzer :=
  {| lexicon := lexicon self;
     valid_phonemes := phonology_consonants ++ phonology_vowels;
     valid_domains := valid_domains self;
     consonants := phonology_consonants;
     vowels := phonology_vowels;
     permitted_clusters := phonology_clusters |}.

(** The proposal fields; a missing key reads as the empty string. *)
Record Fields := {
  f_word : pystr;
  f_definition : pystr;
  f_domain : pystr;
  f_justification : pystr
}.

(** Message markers. *)
Definition mark_fail : pystr := [10060%N] ++ lit " FAIL: ".
Definition mark_pass : pystr := [9989%N] ++ lit " PASS: ".
Definition mark_warning : pystr := [9888%N; 65039%N] ++ lit " WARNING: ".
Definition mark_error : pystr := [10060%N] ++ lit " ERROR: ".

(** ** The analyzer's methods

    [self] is the analyzer whose tables the methods read.  Two behaviours
    of the Python runtime are taken as given rather than modelled:
    the order in which a [set] of characters is iterated, and the
    rendering of a score by the format [:.2f]. *)

Section Methods.

Variable set_iteration : list char -> list char.
Variable format_2f : Q -> pystr.
Variable self : ProposalAnalyzer.

Definition char_at (s : pystr) (i : nat) : char := nth i s 0%N.

(** [s[a:b]] for [a <= b]. *)
Definition slice (s : pystr) (a b : nat) : pystr := firstn (b - a) (skipn a s).

Definition is_consonant (c : char) : bool := char_in c (consonants self).
Definition is_vowel (c : char) : bool := char_in c (vowels self).
Definition is_permitted (cluster : pystr) : bool :=
  str_in cluster (permitted_clusters self).

(** *** Phonotactic validator *)

(** The onset of a syllable starting at [i < len(chars)]: the index after
    it, or [None] where the function returns [False]. *)
Definition onset (chars : pystr) (i : nat) : option nat :=
  if (i <? length chars - 1) && is_consonant (char_at chars i)
     && is_consonant (char_at chars (i + 1))
  then
    let cluster := [char_at chars i; char_at chars (i + 1)] in
    if is_permitted cluster then Some (i + 2) else None
  else if is_consonant (char_at chars i) then Some (i + 1)
  else Some i.

(** The coda loop [while i < len(chars) and chars[i] in self.consonants];
    the result is [i] when the loop is left.  Each pass that stays in the
    loop advances [i], so [len(chars)] passes are enough. *)
Fixpoint coda_loop (fuel : nat) (chars : pystr) (i : nat) : nat :=
  match fuel with
  | 0 => i
  | S fuel' =>
      if (i <? length chars) && is_consonant (char_at chars i) then
        if i =? length chars - 1 then i + 1
        else if (i <? length chars - 1) && is_vowel (char_at chars (i + 1))
        then i
        else if (i <? length chars - 1)
                && is_consonant (char_at chars (i + 1))
        then
          let cluster := [char_at chars i; char_at chars (i + 1)] in
          if is_permitted cluster then i else i + 1
        else coda_loop fuel' chars (i + 1)
      else i
  end.

(** The syllable loop [while i < len(chars)]; each pass consumes a vowel,
    so [len(chars)] passes are enough and the loop then ends with [True]. *)
Fixpoint syllable_loop (fuel : nat) (chars : pystr) (i : nat) : bool :=
  match fuel with
  | 0 => true
  | S fuel' =>
      if i <? length chars then
        match onset chars i with
        | None => false
        | Some i =>
            if (length chars <=? i) || negb (is_vowel (char_at chars i))
            then false
            else
              let i := i + 1 in
              let i := coda_loop (length chars) chars i in
              syllable_loop fuel' chars i
        end
      else true
  end.

Definition _is_valid_syllable_sequence (word_part : pystr) : bool :=
  if is_empty word_part then false
  else
    let chars := lower word_part in
    syllable_loop (length chars) chars 0.

(** The loop over the parts in [_validate_hyphen_usage]. *)
Fixpoint hyphen_parts_loop (parts : list pystr) : bool * pystr :=
  match parts with
  | [] => (true, [])
  | part :: parts' =>
      if is_empty part
      then (false, lit "Empty word part found (consecutive hyphens?)")
      else if negb (_is_valid_syllable_sequence part)
      then (false, lit "Invalid syllable structure in part '" ++ part
                   ++ lit "'")
      else hyphen_parts_loop parts'
  end.

Definition _validate_hyphen_usage (word : pystr) : bool * pystr :=
  if contains (lit "--") word
  then (false, lit "Multiple consecutive hyphens not allowed")
  else if starts_with (lit "-") word || ends_with (lit "-") word
  then (false, lit "Hyphens cannot appear at word boundaries")
  else
    let parts := split_hyphen word in
    if length parts <? 2
    then (false, lit "Hyphenated word must have at least two parts")
    else hyphen_parts_loop parts.

Fixpoint syllable_parts_loop (parts : list pystr) : bool * pystr :=
  match parts with
  | [] => (true, [])
  | part :: parts' =>
      if negb (_is_valid_syllable_sequence (lower part))
      then (false, lit "Invalid syllable structure in '" ++ part ++ lit "'")
      else syllable_parts_loop parts'
  end.

Definition _validate_syllable_structure (word : pystr) : bool * pystr :=
  syllable_parts_loop (split_hyphen word).

(** [while i < len(part) and part[i] in self.consonants: i += 1] *)
Fixpoint skip_consonants (fuel : nat) (part : pystr) (i : nat) : nat :=
  match fuel with
  | 0 => i
  | S fuel' =>
      if (i <? length part) && is_consonant (char_at part i)
      then skip_consonants fuel' part (i + 1)
      else i
  end.

(** The scan of one part in [_validate_consonant_clusters]: [Some r] where
    the function returns [r], [None] where the loop ends and the next part
    is taken.  Each pass advances [i], so [len(part)] passes are enough. *)
Fixpoint cluster_scan (fuel : nat) (part_idx : nat) (part : pystr) (i : nat)
    : option (bool * pystr * bool) :=
  match fuel with
  | 0 => None
  | S fuel' =>
      if i <? length part then
        if is_consonant (char_at part i) then
          let cluster_start := i in
          let i := skip_consonants (length part) part i in
          let cluster_length := i - cluster_start in
          if 1 <? cluster_length then
            let cluster := slice part cluster_start i in
            if 2 <? length cluster then
              Some (false,
                    lit "Consonant cluster '" ++ cluster
                    ++ lit "' is too long (max 2 consonants)",
                    false)
            else if negb (is_permitted cluster) then
              Some (false,
                    lit "Consonant cluster '" ++ cluster
                    ++ lit "' is not permitted. Allowed clusters: "
                    ++ join (lit ", ") (sorted str_leb (permitted_clusters self)),
                    false)
            else if (cluster_start =? 0) && (part_idx =? 0) then
              Some (false,
                    lit "Consonant cluster '" ++ cluster
                    ++ lit "' cannot appear at word beginning",
                    false)
            else cluster_scan fuel' part_idx part i
          else cluster_scan fuel' part_idx part i
        else cluster_scan fuel' part_idx part (i + 1)
      else None
  end.

Fixpoint cluster_parts_loop (parts : list (nat * pystr))
    : bool * pystr * bool :=
  match parts with
  | [] => (true, [], false)
  | (part_idx, part) :: parts' =>
      let part := lower part in
      match cluster_scan (length part) part_idx part 0 with
      | Some r => r
      | None => cluster_parts_loop parts'
      end
  end.

Definition _validate_consonant_clusters (word : pystr)
    : bool * pystr * bool :=
  cluster_parts_loop (enumerate (split_hyphen word)).

Definition status_is_pass (s : Status.t) : bool :=
  match s with Status.PASS => true | _ => false end.
Definition status_is_fail (s : Status.t) : bool :=
  match s with Status.FAIL => true | _ => false end.

(** The characters of [clean_word] that are not phonemes, in order. *)
Definition invalid_phonemes_of (word : pystr) : list char :=
  let clean_word := lower (remove_hyphens word) in
  filter (fun c => negb (char_in c (valid_phonemes self))) clean_word.

Definition singleton (c : char) : pystr := [c].

(** The first failure message of the phonotactic check, for the characters
    [names] in the order the set yields them. *)
Definition invalid_phonemes_message (names : list char) : pystr :=
  mark_fail ++ lit "Invalid phonemes found: "
  ++ join (lit ", ") (map singleton names).

(** The status and messages [_analyze_phonotactics_basic] computes. *)
Definition phonotactics_outcome (word : pystr) : CheckOutcome :=
  let messages := [] in
  let status := Status.PASS in
  (* 1. all characters are valid phonemes *)
  let invalid_phonemes := invalid_phonemes_of word in
  let '(status, messages) :=
    if negb (is_empty invalid_phonemes) then
      (Status.FAIL,
       messages
       ++ [invalid_phonemes_message (set_iteration invalid_phonemes)]
       ++ [lit "Valid phonemes: "
           ++ join (lit ", ")
                (map singleton (sorted N.leb (valid_phonemes self)))])
    else
      (status,
       messages ++ [mark_pass ++ lit "All phonemes are valid Fidakune sounds"])
  in
  (* 2. hyphen usage *)
  let '(status, messages) :=
    if has_hyphen word then
      let hyphen_valid := _validate_hyphen_usage word in
      if negb (fst hyphen_valid)
      then (Status.FAIL, messages ++ [mark_fail ++ snd hyphen_valid])
      else (status,
            messages
            ++ [mark_pass
                ++ lit "Hyphen placement is correct for compound words"])
    else (status, messages)
  in
  (* 3. syllable structure *)
  let syllable_valid := _validate_syllable_structure word in
  let '(status, messages) :=
    if negb (fst syllable_valid)
    then (Status.FAIL, messages ++ [mark_fail ++ snd syllable_valid])
    else (status,
          messages
          ++ [mark_pass
              ++ lit "Syllable structure follows Fidakune phonotactics"])
  in
  (* 4. consonant clusters *)
  let '(cluster_ok, cluster_msg, cluster_is_warning) :=
    _validate_consonant_clusters word in
  let '(status, messages) :=
    if negb cluster_ok then
      if cluster_is_warning then
        (if status_is_pass status then Status.WARNING else status,
         messages ++ [mark_warning ++ cluster_msg])
      else (Status.FAIL, messages ++ [mark_fail ++ cluster_msg])
    else (status, messages ++ [mark_pass ++ lit "Consonant clusters are valid"])
  in
  {| status := status; messages := messages |}.

(** [_analyze_phonotactics_basic]: the outcome is stored under
    ['phonotactics']; the other entries are untouched. *)
Definition _analyze_phonotactics_basic (word : pystr)
    (results : AnalysisResults) : AnalysisResults :=
  {| phonotactics := phonotactics_outcome word;
     lexicon_check := lexicon_check results;
     homophones := homophones results;
     semantics := semantics results;
     recommendation := recommendation results |}.

(** *** Lexicon consistency checker *)

Definition root_missing_message (root : pystr) : pystr :=
  lit "Root word '" ++ root ++ lit "' not found in lexicon".

(** The loop of [_verify_compound_roots]. *)
Fixpoint verify_roots_loop (roots : list pystr) (success_messages : list pystr)
    : bool * pystr * list pystr :=
  match roots with
  | [] => (true, [], success_messages)
  | root :: roots' =>
      match lexicon_get (lexicon self) root with
      | None => (false, root_missing_message root, [])
      | Some root_entry =>
          let root_def := get_or_unknown (entry_definition root_entry) in
          let root_domain := get_or_unknown (entry_domain root_entry) in
          verify_roots_loop roots'
            (success_messages
             ++ [mark_pass ++ lit "Root '" ++ root
                 ++ lit "' exists in lexicon (" ++ root_domain ++ lit ": "
                 ++ root_def ++ lit ")"])
      end
  end.

Definition _verify_compound_roots (compound_word : pystr)
    : bool * pystr * list pystr :=
  verify_roots_loop (split_hyphen compound_word) [].

(** The fixed table [domain_combinations]. *)
Definition domain_combinations : list (pystr * list pystr) :=
  [ (lit "Emotion", [lit "Body"; lit "Nature"; lit "Quality"]);
    (lit "Action", [lit "Body"; lit "Object"; lit "Nature"]);
    (lit "Quality", [lit "Nature"; lit "Object"; lit "Body"]) ].

Fixpoint table_get (table : list (pystr * list pystr)) (key : pystr)
    : option (list pystr) :=
  match table with
  | [] => None
  | (k, v) :: table' => if str_eqb k key then Some v else table_get table' key
  end.

(** [root_domains]: the domain of every root that is in the lexicon. *)
Fixpoint root_domains_of (roots : list pystr) : list pystr :=
  match roots with
  | [] => []
  | root :: roots' =>
      match lexicon_get (lexicon self) root with
      | Some e => get_or_unknown (entry_domain e) :: root_domains_of roots'
      | None => root_domains_of roots'
      end
  end.

Definition domain_consistent_message (proposed_domain : pystr)
    (root_domains : list pystr) : pystr :=
  mark_pass ++ lit "Domain '" ++ proposed_domain
  ++ lit "' is consistent with root domains: "
  ++ join (lit ", ") root_domains.

Definition domain_compatible_message (proposed_domain : pystr)
    (root_domains : list pystr) : pystr :=
  mark_pass ++ lit "Domain '" ++ proposed_domain
  ++ lit "' is semantically compatible with root domains: "
  ++ join (lit ", ") root_domains.

Definition domain_mismatch_message (proposed_domain : pystr)
    (root_domains : list pystr) : pystr :=
  lit "Domain '" ++ proposed_domain
  ++ lit "' may not be consistent with root domains: "
  ++ join (lit ", ") root_domains
  ++ lit ". Consider if this combination makes semantic sense.".

Definition _check_compound_domain_consistency
    (compound_word proposed_domain : pystr) : bool * pystr :=
  let roots := split_hyphen compound_word in
  let root_domains := root_domains_of roots in
  if str_in proposed_domain root_domains
  then (true, domain_consistent_message proposed_domain root_domains)
  else
    let mismatch :=
      (false, domain_mismatch_message proposed_domain root_domains) in
    match table_get domain_combinations proposed_domain with
    | Some compatible =>
        if existsb (fun root_domain => str_in root_domain compatible)
             root_domains
        then (true, domain_compatible_message proposed_domain root_domains)
        else mismatch
    | None => mismatch
    end.

Definition word_exists_message (word existing_def : pystr) : pystr :=
  mark_fail ++ lit "Word '" ++ word
  ++ lit "' already exists in lexicon with definition: " ++ existing_def.

Definition word_is_new_message (word : pystr) : pystr :=
  mark_pass ++ lit "Word '" ++ word ++ lit "' is not already in lexicon".

(** The message the duplicate test appends, in either case. *)
Definition duplicate_message (word : pystr) : pystr :=
  match lexicon_get (lexicon self) word with
  | Some entry =>
      word_exists_message word (get_or_unknown (entry_definition entry))
  | None => word_is_new_message word
  end.

(** The status and messages [_analyze_lexicon_basic] computes. *)
Definition lexicon_outcome (word domain : pystr) : CheckOutcome :=
  let messages := [] in
  let status := Status.PASS in
  (* 1. the word already exists *)
  let '(status, messages) :=
    match lexicon_get (lexicon self) word with
    | Some entry =>
        let existing_def := get_or_unknown (entry_definition entry) in
        (Status.FAIL, messages ++ [word_exists_message word existing_def])
    | None => (status, messages ++ [word_is_new_message word])
    end
  in
  (* 2. the roots of a compound exist *)
  let '(status, messages) :=
    if has_hyphen word then
      let '(roots_ok, roots_error, roots_messages) :=
        _verify_compound_roots word in
      if negb roots_ok
      then (Status.FAIL, messages ++ [mark_fail ++ roots_error])
      else (status, messages ++ roots_messages)
    else (status, messages)
  in
  (* 3. domain consistency of a compound *)
  let '(status, messages) :=
    if has_hyphen word && negb (status_is_fail status) then
      let domain_check := _check_compound_domain_consistency word domain in
      if negb (fst domain_check) then
        (if status_is_pass status then Status.WARNING else status,
         messages ++ [mark_warning ++ snd domain_check])
      else (status, messages ++ [snd domain_check])
    else (status, messages)
  in
  {| status := status; messages := messages |}.

Definition _analyze_lexicon_basic (word domain : pystr)
    (results : AnalysisResults) : AnalysisResults :=
  {| phonotactics := phonotactics results;
     lexicon_check := lexicon_outcome word domain;
     homophones := homophones results;
     semantics := semantics results;
     recommendation := recommendation results |}.

(** *** Homophone detector: edit distance *)

(** [(c1 != c2)] used as an integer. *)
Definition neq (c1 c2 : char) : nat := if char_eqb c1 c2 then 0 else 1.

(** Python's three-argument [min]. *)
Definition min3 (a b c : nat) : nat := Nat.min a (Nat.min b c).

(** One pass of the inner loop body: the cell appended to [current_row].
    All three indices are in range whenever [previous_row] has
    [len(s2) + 1] cells, so the default of [nth] is never used. *)
Definition lev_cell (previous_row current_row : list nat)
    (c1 : char) (j : nat) (c2 : char) : nat :=
  let insertions := nth (j + 1) previous_row 0 + 1 in
  let deletions := nth j current_row 0 + 1 in
  let substitutions := nth j previous_row 0 + neq c1 c2 in
  min3 insertions deletions substitutions.

(** [for j, c2 in enumerate(s2): ... current_row.append(...)], over the
    columns [cols] still to fill, from the row built so far. *)
Definition lev_inner_loop (previous_row : list nat) (c1 : char)
    (cols : list (nat * char)) (current_row : list nat) : list nat :=
  fold_left
    (fun row jc => row ++ [lev_cell previous_row row c1 (fst jc) (snd jc)])
    cols current_row.

(** The body of the outer loop: [current_row = [i + 1]], the inner loop,
    then [previous_row = current_row]. *)
Definition lev_outer_step (s2 : pystr) (previous_row : list nat)
    (ic : nat * char) : list nat :=
  lev_inner_loop previous_row (snd ic) (enumerate s2) [fst ic + 1].

Definition lev_outer_loop (s2 : pystr) (rows : list (nat * char))
    (previous_row : list nat) : list nat :=
  fold_left (lev_outer_step s2) rows previous_row.

(** The function once the longer string is known to come first. *)
Definition lev_rows (s1 s2 : pystr) : nat :=
  if length s2 =? 0 then length s1
  else last (lev_outer_loop s2 (enumerate s1) (seq 0 (length s2 + 1))) 0.

(** [_levenshtein_distance]: when [len(s1) < len(s2)] the function calls
    itself with the arguments swapped, and that call does not swap again. *)
Definition _levenshtein_distance (s1 s2 : pystr) : nat :=
  if length s1 <? length s2 then lev_rows s2 s1 else lev_rows s1 s2.

(** *** The classic edit distance

    An edit script turns [a] into [b] by deleting a character of [a],
    inserting a character of [b], or substituting one for the other (at no
    cost when they are equal); [edit a b n] says some script has cost [n]. *)
Inductive edit : pystr -> pystr -> nat -> Prop :=
| edit_nil : edit [] [] 0
| edit_del x a b n : edit a b n -> edit (x :: a) b (S n)
| edit_ins y a b n : edit a b n -> edit a (y :: b) (S n)
| edit_sub x y a b n : edit a b n -> edit (x :: a) (y :: b) (n + neq x y).

(** [d] is the minimum cost of an edit script from [a] to [b]. *)
Definition is_edit_distance (a b : pystr) (d : nat) : Prop :=
  edit a b d /\ forall n, edit a b n -> d <= n.

(** The textbook recursion computing it. *)
Fixpoint edit_distance (a b : pystr) {struct a} : nat :=
  match a with
  | [] => length b
  | x :: a' =>
      (fix against (b : pystr) : nat :=
         match b with
         | [] => length a
         | y :: b' =>
             min3 (edit_distance a' b + 1) (against b' + 1)
                  (edit_distance a' b' + neq x y)
         end) b
  end.

(** The row the algorithm is to hold once it has consumed the prefix [a]
    of [s1]: column [j] is the distance from [a] to the first [j]
    characters of [s2]. *)
Definition row_of (a s2 : pystr) (cols : nat) : list nat :=
  map (fun j => edit_distance a (firstn j s2)) (seq 0 cols).

(** *** Homophone detector: similarity score *)

Local Open Scope Q_scope.

Definition Q_of_nat (n : nat) : Q := inject_Z (Z.of_nat n).

(** Python's [min(x, y)]: [y] when [y < x], else [x]. *)
Definition py_min (x y : Q) : Q := if Qlt_le_dec y x then y else x.

(** [abs(m - n)] on lengths. *)
Definition abs_diff (m n : nat) : nat := Nat.max m n - Nat.min m n.

(** [_calculate_pronunciation_similarity] *)
Definition _calculate_pronunciation_similarity (pron1 pron2 : pystr) : Q :=
  if is_empty pron1 || is_empty pron2 then 0
  else
    let distance := _levenshtein_distance pron1 pron2 in
    let max_len := Nat.max (length pron1) (length pron2) in
    if (max_len =? 0)%nat then 1
    else
      let similarity := 1 - Q_of_nat distance / Q_of_nat max_len in
      let length_diff := abs_diff (length pron1) (length pron2) in
      let similarity :=
        if (length_diff <=? 1)%nat then similarity + (1 # 10) else similarity in
      py_min similarity 1.

(** The score the text of the specification describes, on the classic
    edit distance. *)
Definition similarity_formula (a b : pystr) : Q :=
  if is_empty a || is_empty b then 0
  else
    Qmin 1
      ((1 - Q_of_nat (edit_distance a b)
            / Q_of_nat (Nat.max (length a) (length b)))
       + (if (abs_diff (length a) (length b) <=? 1)%nat then 1 # 10 else 0)).

(** *** Homophone detector: the scan of the lexicon *)

(** [_generate_pronunciation]: the table maps [r] to U+027E and [j] to
    [y]. *)
Definition pronunciation_map (c : char) : char :=
  if char_eqb c 114%N then 638%N
  else if char_eqb c 106%N then 121%N
  else c.

Definition _generate_pronunciation (word : pystr) : pystr :=
  let clean_word := lower (remove_hyphens word) in
  map pronunciation_map clean_word.

(** One element of [similar_words]. *)
Record Similar := {
  sw_word : pystr;
  sw_definition : pystr;
  sw_pronunciation : pystr;
  sw_similarity : Q
}.

(** [sort(key=similarity, reverse=True)]: descending and stable. *)
Fixpoint insert_by_similarity (x : Similar) (l : list Similar)
    : list Similar :=
  match l with
  | [] => [x]
  | y :: l' =>
      if Qlt_le_dec (sw_similarity x) (sw_similarity y)
      then y :: insert_by_similarity x l'
      else x :: l
  end.
Definition sort_by_similarity (l : list Similar) : list Similar :=
  fold_right insert_by_similarity [] l.

Fixpoint similar_scan (proposed_word proposed_pronunciation : pystr)
    (items : list (pystr * Entry)) : list Similar :=
  match items with
  | [] => []
  | (existing_word, entry) :: items' =>
      let rest :=
        similar_scan proposed_word proposed_pronunciation items' in
      if str_eqb existing_word proposed_word then rest
      else
        let existing_pronunciation := _generate_pronunciation existing_word in
        let similarity :=
          _calculate_pronunciation_similarity
            proposed_pronunciation existing_pronunciation in
        if Qlt_le_dec (6 # 10) similarity then
          {| sw_word := existing_word;
             sw_definition := get_or_unknown (entry_definition entry);
             sw_pronunciation := existing_pronunciation;
             sw_similarity := similarity |} :: rest
        else rest
  end.

Definition _find_similar_pronunciations
    (proposed_word proposed_pronunciation : pystr) : list Similar :=
  sort_by_similarity
    (similar_scan proposed_word proposed_pronunciation (lexicon self)).

(** The status and messages [_analyze_homophones] computes. *)
Definition homophones_outcome (word : pystr) : CheckOutcome :=
  let proposed_pronunciation := _generate_pronunciation word in
  let similar_words :=
    _find_similar_pronunciations word proposed_pronunciation in
  match similar_words with
  | [] =>
      {| status := Status.PASS;
         messages :=
           [mark_pass ++ lit "No pronunciation conflicts detected"] |}
  | similar_word :: others =>
      if (length similar_words =? 1)%nat
         && (if Qlt_le_dec (9 # 10) (sw_similarity similar_word)
             then true else false)
      then
        {| status := Status.WARNING;
           messages :=
             [mark_warning ++ lit "Very similar pronunciation to '"
              ++ sw_word similar_word ++ lit "' ("
              ++ sw_definition similar_word
              ++ lit ") - potential homophone conflict"] |}
      else
        {| status := Status.WARNING;
           messages :=
             (mark_warning ++ lit "Similar pronunciation to existing words:")
             :: map (fun similar_word =>
                       lit "  " ++ [8226%N] ++ lit " '"
                       ++ sw_word similar_word ++ lit "' ("
                       ++ sw_definition similar_word
                       ++ lit ") - similarity: "
                       ++ format_2f (sw_similarity similar_word))
                  (firstn 3 similar_words) |}
  end.

Definition _analyze_homophones (word : pystr)
    (results : AnalysisResults) : AnalysisResults :=
  {| phonotactics := phonotactics results;
     lexicon_check := lexicon_check results;
     homophones := homophones_outcome word;
     semantics := semantics results;
     recommendation := recommendation results |}.

Local Close Scope Q_scope.

(** *** Semantic checker *)

(** The status and messages [_analyze_semantics_basic] computes. *)
Definition semantics_outcome (word definition domain justification : pystr)
    : CheckOutcome :=
  let messages := [] in
  let status := Status.PASS in
  let '(status, messages) :=
    if negb (str_in domain (valid_domains self))
    then (Status.FAIL,
          messages
          ++ [mark_fail ++ lit "Invalid semantic domain '" ++ domain
              ++ lit "'"])
    else (status,
          messages
          ++ [mark_pass ++ lit "Semantic domain '" ++ domain
              ++ lit "' is valid"])
  in
  let '(status, messages) :=
    if is_empty definition
    then (Status.FAIL, messages ++ [mark_fail ++ lit "No definition provided"])
    else (status, messages ++ [mark_pass ++ lit "Definition provided"])
  in
  let '(status, messages) :=
    if is_empty justification
    then (Status.WARNING,
          messages ++ [mark_warning ++ lit "No justification provided"])
    else (status, messages ++ [mark_pass ++ lit "Justification provided"])
  in
  {| status := status; messages := messages |}.

Definition _analyze_semantics_basic
    (word definition domain justification : pystr)
    (results : AnalysisResults) : AnalysisResults :=
  {| phonotactics := phonotactics results;
     lexicon_check := lexicon_check results;
     homophones := homophones results;
     semantics := semantics_outcome word definition domain justification;
     recommendation := recommendation results |}.

(** *** Recommendation aggregator *)

(** The statuses [self.analysis_results.items()] yields; the entry
    ['recommendation'] is a string and is skipped. *)
Definition section_statuses (results : AnalysisResults) : list Status.t :=
  [ status (phonotactics results); status (lexicon_check results);
    status (homophones results); status (semantics results) ].

Definition status_is_error (s : Status.t) : bool :=
  match s with Status.ERROR => true | _ => false end.
Definition status_is_warning (s : Status.t) : bool :=
  match s with Status.WARNING => true | _ => false end.

Definition count_status (p : Status.t -> bool) (results : AnalysisResults)
    : nat :=
  length (filter p (section_statuses results)).

Definition set_recommendation (r : Recommendation.t)
    (results : AnalysisResults) : AnalysisResults :=
  {| phonotactics := phonotactics results;
     lexicon_check := lexicon_check results;
     homophones := homophones results;
     semantics := semantics results;
     recommendation := r |}.

(** The first definition of [_generate_recommendation] in the class. *)
Definition _generate_recommendation_first (results : AnalysisResults)
    : AnalysisResults :=
  let fail_count := count_status status_is_fail results in
  let error_count := count_status status_is_error results in
  let warning_count := count_status status_is_warning results in
  if 0 <? error_count then set_recommendation Recommendation.ERROR results
  else if 0 <? fail_count then set_recommendation Recommendation.REJECT results
  else if 0 <? warning_count
  then set_recommendation Recommendation.REVIEW results
  else set_recommendation Recommendation.APPROVE results.

(** The second definition, which replaces the first in the class body and
    is the one [analyze_proposal] calls. *)
Definition _generate_recommendation (results : AnalysisResults)
    : AnalysisResults :=
  let fail_count := count_status status_is_fail results in
  let error_count := count_status status_is_error results in
  let warning_count := count_status status_is_warning results in
  if 0 <? error_count then set_recommendation Recommendation.ERROR results
  else if 0 <? fail_count then set_recommendation Recommendation.REJECT results
  else if 2 <? warning_count
  then set_recommendation Recommendation.REVIEW results
  else if 0 <? warning_count
  then set_recommendation Recommendation.REVIEW results
  else set_recommendation Recommendation.APPROVE results.

(** *** The pipeline *)

Definition _set_critical_error (message : pystr) (results : AnalysisResults)
    : AnalysisResults :=
  let outcome :=
    {| status := Status.ERROR; messages := [mark_error ++ message] |} in
  {| phonotactics := outcome; lexicon_check := outcome;
     homophones := outcome; semantics := outcome;
     recommendation := Recommendation.ERROR |}.

(** [str(n)] for a length. *)
Definition decimal (n : nat) : pystr :=
  lit (DecimalString.NilZero.string_of_uint (Nat.to_uint n)).

Definition is_word_char (c : char) : bool :=
  (((65 <=? c) && (c <=? 90)) || ((97 <=? c) && (c <=? 122)))%N
  || char_eqb c hyphen.

(** [re.match(r'^[a-zA-Z-]+$', word)]: the class one or more times up to
    the end, where [$] also accepts one final newline. *)
Definition matches_word_pattern (word : pystr) : bool :=
  let body :=
    match rev word with
    | c :: r => if char_eqb c newline then rev r else word
    | [] => word
    end in
  negb (is_empty body) && forallb is_word_char body.

(** [analyze_proposal].  With typed fields and entries none of the checks
    raises, so the [except] branches do not occur. *)
Definition analyze_proposal (fields : Fields) (results : AnalysisResults)
    : AnalysisResults :=
  let word := strip (f_word fields) in
  let definition := strip (f_definition fields) in
  let domain := strip (f_domain fields) in
  let justification := strip (f_justification fields) in
  if is_empty word
  then _set_critical_error (lit "No word provided in proposal") results
  else if 50 <? length word
  then _set_critical_error
         (lit "Proposed word is too long (" ++ decimal (length word)
          ++ lit " characters, max 50)") results
  else if negb (matches_word_pattern word)
  then _set_critical_error
         (lit "Word contains invalid characters (only letters and hyphens allowed)")
         results
  else
    let results := _analyze_phonotactics_basic word results in
    let results := _analyze_lexicon_basic word domain results in
    let results := _analyze_homophones word results in
    let results :=
      _analyze_semantics_basic word definition domain justification results in
    _generate_recommendation results.

End Methods.

(** ** Field sanitizer *)

Definition backslash : char := 92%N.

(** The list [dangerous_chars] of [_sanitize_input]. *)
Definition dangerous_chars : list char := lit "`*_[]()!<>".

(** [text.replace(char, '\\' + char)] for a one-character [char]. *)
Definition escape_char (ch : char) (text : pystr) : pystr :=
  flat_map (fun c => if char_eqb c ch then [backslash; c] else [c]) text.

(** [for char in dangerous_chars: if char in text: text = text.replace(...)] *)
Definition escape_dangerous (text : pystr) : pystr :=
  fold_left
    (fun text ch => if char_in ch text then escape_char ch text else text)
    dangerous_chars text.

(** [_sanitize_input].  The two [re.sub] calls, which delete script
    elements and HTML comments, are taken as given functions
    [sub_script_tags] and [sub_html_comments]; regular-expression matching
    is not modelled. *)
Definition _sanitize_input (sub_script_tags sub_html_comments : pystr -> pystr)
    (text : pystr) : pystr :=
  if is_empty text then text
  else
    let text := sub_script_tags text in
    let text := sub_html_comments text in
    let text := escape_dangerous text in
    let text :=
      if 1000 <? length text then firstn 1000 text ++ lit "..." else text in
    strip text.

(** Every occurrence of a character of [dangerous_chars] in [text] comes
    right after a backslash. *)
Definition all_escaped (text : pystr) : Prop :=
  forall before c after,
    text = before ++ c :: after -> In c dangerous_chars ->
    exists before', before = before' ++ [backslash].

(** ** Loading the lexicon *)

(** An element of the JSON array of the lexicon file: something that is
    not an object, or an object, of which the value under ['word'] (a
    string or absent) and the entry are read. *)
Inductive Item :=
| NotAnObject
| Object (word : option pystr) (entry : Entry).

(** [d[key] = value] on the items of a [dict]: the value of an existing key
    is replaced in place, a new key goes to the end. *)
Fixpoint dict_set (lex : list (pystr * Entry)) (word : pystr) (e : Entry)
    : list (pystr * Entry) :=
  match lex with
  | [] => [(word, e)]
  | (w, e') :: lex' =>
      if str_eqb w word then (w, e) :: lex'
      else (w, e') :: dict_set lex' word e
  end.

(** [s.add(x)] on a set of strings. *)
Definition set_add (x : pystr) (s : list pystr) : list pystr :=
  if str_in x s then s else s ++ [x].

(** [d.get(key, '')] *)
Definition get_or_empty (v : option pystr) : pystr :=
  match v with Some x => x | None => [] end.

Definition with_lexicon (lex : list (pystr * Entry)) (self : ProposalAnalyzer)
    : ProposalAnalyzer :=
  {| lexicon := lex;
     valid_phonemes := valid_phonemes self;
     valid_domains := valid_domains self;
     consonants := consonants self;
     vowels := vowels self;
     permitted_clusters := permitted_clusters self |}.

Definition with_valid_domains (domains : list pystr) (self : ProposalAnalyzer)
    : ProposalAnalyzer :=
  {| lexicon := lexicon self;
     valid_phonemes := valid_phonemes self;
     valid_domains := domains;
     consonants := consonants self;
     vowels := vowels self;
     permitted_clusters := permitted_clusters self |}.

(** One pass of the loop [for i, entry in enumerate(lexicon_data)] of
    [load_lexicon], on the analyzer and the counter [valid_entries]. *)
Definition load_item (state : ProposalAnalyzer * nat) (item : Item)
    : ProposalAnalyzer * nat :=
  match item with
  | NotAnObject => state
  | Object word entry =>
      let word := get_or_empty word in
      if is_empty word then state
      else
        let self := with_lexicon (dict_set (lexicon (fst state)) word entry)
                      (fst state) in
        let domain := get_or_empty (entry_domain entry) in
        let self :=
          if is_empty domain then self
          else with_valid_domains (set_add domain (valid_domains self)) self in
        (self, snd state + 1)
  end.

(** [load_lexicon] from the point where the file has been read and parsed
    into the array [lexicon_data]: the loop, then the test for an array
    without any valid entry, which records an error message and returns
    [False]. *)
Definition load_lexicon_data (lexicon_data : list Item)
    (self : ProposalAnalyzer) (results : AnalysisResults)
    : bool * ProposalAnalyzer * AnalysisResults :=
  let state := fold_left load_item lexicon_data (self, 0) in
  if (snd state =? 0) && (0 <? length lexicon_data) then
    (false, fst state,
     {| phonotactics := phonotactics results;
        lexicon_check :=
          {| status := status (lexicon_check results);
             messages :=
               messages (lexicon_check results)
               ++ [mark_error ++ lit "No valid entries found in lexicon file"]
          |};
        homophones := homophones results;
        semantics := semantics results;
        recommendation := recommendation results |})
  else (true, fst state, results).


(** The entry the array gives for [word]: that of the last object whose
    ['word'] is [word]. *)
Fixpoint last_entry (lexicon_data : list Item) (word : pystr)
    : option Entry :=
  match lexicon_data with
  | [] => None
  | item :: rest =>
      match last_entry rest word with
      | Some e => Some e
      | None =>
          match item with
          | Object (Some w) e => if str_eqb w word then Some e else None
          | _ => None
          end
      end
  end.



(** ** Words built from open syllables

    A syllable of the shape V or CV, and the word a list of them spells;
    used to state which words the phonotactic check accepts. *)

Definition syllable_text (syllable : option char * char) : pystr :=
  match fst syllable with
  | Some onset_consonant => [onset_consonant; snd syllable]
  | None => [snd syllable]
  end.

Definition syllables_text (syllables : list (option char * char)) : pystr :=
  flat_map syllable_text syllables.

(** The syllable has a vowel of the loaded table as nucleus and, if any, a
    consonant of the loaded table as onset. *)
Definition open_syllable (syllable : option char * char) : Prop :=
  In (snd syllable) phonology_vowels /\
  match fst syllable with
  | Some onset_consonant => In onset_consonant phonology_consonants
  | None => True
  end.

(** ** A sample analyzer

    A three-word lexicon with the tables of [load_phonology], and the
    runtime behaviours instantiated: a set is iterated in the order
    [nodup] leaves, and scores are rendered by [format_two_places]. *)

Definition sample_entry (definition domain : pystr) : Entry :=
  {| entry_definition := Some definition; entry_domain := Some domain |}.

Definition sample_analyzer : ProposalAnalyzer :=
  load_phonology
    {| lexicon :=
         [ (lit "ami", sample_entry (lit "friend") (lit "Emotion"));
           (lit "lum", sample_entry (lit "light") (lit "Nature"));
           (lit "kor", sample_entry (lit "heart") (lit "Body")) ];
       valid_phonemes := [];
       valid_domains := [lit "Emotion"; lit "Nature"; lit "Body"];
       consonants := [];
       vowels := [];
       permitted_clusters := [] |}.

Definition sample_set_iteration : list char -> list char := nodup N.eq_dec.

(** The nearest hundredth of a non-negative score, ties to even; it stands
    in for [:.2f], which rounds the binary64 value instead. *)
Definition format_two_places (q : Q) : pystr :=
  let scaled := (q * 100)%Q in
  let below := Qfloor scaled in
  let rest := (scaled - inject_Z below)%Q in
  let up :=
    match (rest ?= 1 # 2)%Q with
    | Gt => true
    | Eq => Z.odd below
    | Lt => false
    end in
  let hundredths := Z.to_nat (if up then below + 1 else below)%Z in
  decimal (hundredths / 100) ++ lit "."
  ++ decimal (hundredths / 10 mod 10) ++ decimal (hundredths mod 10).

Definition sample_fields (word definition domain justification : pystr)
    : Fields :=
  {| f_word := word; f_definition := definition; f_domain := domain;
     f_justification := justification |}.

Definition sample_run (fields : Fields) : AnalysisResults :=
  analyze_proposal sample_set_iteration format_two_places sample_analyzer
    fields initial_results.

(* ================================================================= *)
(** * Properties *)

(** ** The row algorithm computes the classic edit distance *)

Lemma edit_distance_nil_r a : edit_distance a [] = length a.
Proof. destruct a; reflexivity. Qed.

Lemma edit_distance_cons x y a b :
  edit_distance (x :: a) (y :: b) =
  min3 (edit_distance a (y :: b) + 1) (edit_distance (x :: a) b + 1)
       (edit_distance a b + neq x y).
Proof. reflexivity. Qed.

Lemma edit_distance_is_edit a : forall b, edit a b (edit_distance a b).
Proof.
  induction a as [|x a IHa].
  - induction b as [|y b IHb]; simpl; [constructor | now apply edit_ins].
  - induction b as [|y b IHb].
    + rewrite edit_distance_nil_r. simpl. apply edit_del.
      specialize (IHa []). now rewrite edit_distance_nil_r in IHa.
    + rewrite edit_distance_cons. unfold min3.
      pose proof (edit_del x (IHa (y :: b))) as Hd.
      pose proof (edit_ins y IHb) as Hi.
      pose proof (edit_sub x y (IHa b)) as Hs.
      rewrite <- Nat.add_1_r in Hd, Hi.
      destruct (Nat.min_spec (edit_distance a (y :: b) + 1)
                  (Nat.min (edit_distance (x :: a) b + 1)
                     (edit_distance a b + neq x y))) as [[_ ->]|[_ ->]];
        [exact Hd|].
      destruct (Nat.min_spec (edit_distance (x :: a) b + 1)
                  (edit_distance a b + neq x y)) as [[_ ->]|[_ ->]];
        assumption.
Qed.

Lemma edit_distance_least a b n : edit a b n -> edit_distance a b <= n.
Proof.
  induction 1 as [|x a b n _ IH|y a b n _ IH|x y a b n _ IH].
  - reflexivity.
  - destruct b as [|y b].
    + rewrite edit_distance_nil_r in *. simpl. lia.
    + rewrite edit_distance_cons. unfold min3. lia.
  - destruct a as [|x a].
    + simpl in *. lia.
    + rewrite edit_distance_cons. unfold min3. lia.
  - rewrite edit_distance_cons. unfold min3. lia.
Qed.

Lemma edit_distance_spec a b : is_edit_distance a b (edit_distance a b).
Proof.
  split; [apply edit_distance_is_edit | intros n; apply edit_distance_least].
Qed.

(** Edit scripts can be extended at the right end as well as at the left. *)
Lemma edit_del_last x a b n : edit a b n -> edit (a ++ [x]) b (S n).
Proof.
  induction 1; simpl.
  - apply edit_del, edit_nil.
  - now apply edit_del.
  - now apply edit_ins.
  - change (S (n + neq x0 y)) with (S n + neq x0 y). now apply edit_sub.
Qed.

Lemma edit_ins_last y a b n : edit a b n -> edit a (b ++ [y]) (S n).
Proof.
  induction 1; simpl.
  - apply edit_ins, edit_nil.
  - now apply edit_del.
  - now apply edit_ins.
  - change (S (n + neq x y0)) with (S n + neq x y0). now apply edit_sub.
Qed.

Lemma edit_sub_last x y a b n :
  edit a b n -> edit (a ++ [x]) (b ++ [y]) (n + neq x y).
Proof.
  induction 1; simpl.
  - apply (edit_sub x y edit_nil).
  - now apply edit_del.
  - now apply edit_ins.
  - replace (n + neq x0 y0 + neq x y) with (n + neq x y + neq x0 y0) by lia.
    now apply edit_sub.
Qed.

Lemma edit_rev a b n : edit a b n -> edit (rev a) (rev b) n.
Proof.
  induction 1; simpl.
  - constructor.
  - now apply edit_del_last.
  - now apply edit_ins_last.
  - now apply edit_sub_last.
Qed.

Lemma neq_sym x y : neq x y = neq y x.
Proof. unfold neq, char_eqb. now rewrite N.eqb_sym. Qed.

Lemma edit_sym a b n : edit a b n -> edit b a n.
Proof.
  induction 1.
  - constructor.
  - now apply edit_ins.
  - now apply edit_del.
  - rewrite neq_sym. now apply edit_sub.
Qed.

Lemma edit_distance_rev a b :
  edit_distance (rev a) (rev b) = edit_distance a b.
Proof.
  apply Nat.le_antisymm.
  - apply edit_distance_least, edit_rev, edit_distance_is_edit.
  - rewrite <- (rev_involutive a), <- (rev_involutive b) at 1.
    apply edit_distance_least, edit_rev, edit_distance_is_edit.
Qed.

Lemma edit_distance_sym a b : edit_distance a b = edit_distance b a.
Proof.
  apply Nat.le_antisymm;
    apply edit_distance_least, edit_sym, edit_distance_is_edit.
Qed.

(** The recursion read from the right, as the row algorithm uses it. *)
Lemma edit_distance_snoc x y a b :
  edit_distance (a ++ [x]) (b ++ [y]) =
  min3 (edit_distance a (b ++ [y]) + 1) (edit_distance (a ++ [x]) b + 1)
       (edit_distance a b + neq x y).
Proof.
  rewrite <- (edit_distance_rev (a ++ [x]) (b ++ [y])).
  rewrite <- (edit_distance_rev a (b ++ [y])).
  rewrite <- (edit_distance_rev (a ++ [x]) b).
  rewrite <- (edit_distance_rev a b).
  rewrite !rev_unit. apply edit_distance_cons.
Qed.

Lemma edit_distance_nil_l b : edit_distance [] b = length b.
Proof. reflexivity. Qed.

Lemma edit_distance_refl a : edit_distance a a = 0.
Proof.
  apply Nat.le_antisymm; [|lia].
  apply edit_distance_least.
  induction a as [|x a IH]; [constructor|].
  pose proof (edit_sub x x IH) as H.
  unfold neq, char_eqb in H. now rewrite N.eqb_refl in H.
Qed.

Lemma edit_distance_le_max a :
  forall b, edit_distance a b <= Nat.max (length a) (length b).
Proof.
  induction a as [|x a IH]; intros b; [simpl; lia|].
  destruct b as [|y b]; [rewrite edit_distance_nil_r; lia|].
  rewrite edit_distance_cons. specialize (IH b).
  assert (neq x y <= 1) by (unfold neq; destruct (char_eqb x y); lia).
  unfold min3. simpl length. lia.
Qed.

Lemma row_of_length a s2 cols : length (row_of a s2 cols) = cols.
Proof. unfold row_of. now rewrite length_map, length_seq. Qed.

Lemma row_of_nth a s2 cols j :
  j < cols -> nth j (row_of a s2 cols) 0 = edit_distance a (firstn j s2).
Proof.
  intros Hj. unfold row_of.
  rewrite (nth_indep _ 0 (edit_distance a (firstn 0 s2)))
    by (rewrite length_map, length_seq; exact Hj).
  rewrite (map_nth (fun j => edit_distance a (firstn j s2))).
  now rewrite seq_nth.
Qed.

Lemma row_of_succ a s2 cols :
  row_of a s2 (S cols) = row_of a s2 cols ++ [edit_distance a (firstn cols s2)].
Proof. unfold row_of. now rewrite seq_S, map_app. Qed.

Lemma firstn_prefix (p q : pystr) : firstn (length p) (p ++ q) = p.
Proof.
  rewrite firstn_app, Nat.sub_diag, firstn_all. simpl. apply app_nil_r.
Qed.

Lemma lev_inner_loop_spec a c q :
  forall p,
    lev_inner_loop (row_of a (p ++ q) (length (p ++ q) + 1)) c
      (enumerate_from (length p) q)
      (row_of (a ++ [c]) (p ++ q) (length p + 1)) =
    row_of (a ++ [c]) (p ++ q) (length (p ++ q) + 1).
Proof.
  induction q as [|c2 q IH]; intros p.
  - simpl. now rewrite app_nil_r.
  - unfold enumerate_from. simpl.
    specialize (IH (p ++ [c2])).
    rewrite <- app_assoc in IH. simpl in IH.
    rewrite <- IH. unfold enumerate_from, lev_inner_loop.
    assert (Hlen : length (p ++ [c2]) = S (length p))
      by (rewrite length_app; simpl; lia).
    rewrite Hlen. replace (length p + 1) with (S (length p)) by lia.
    f_equal.
    replace (S (length p) + 1) with (S (S (length p))) by lia.
    rewrite (row_of_succ _ _ (S (length p))).
    f_equal. f_equal. unfold lev_cell.
    rewrite !row_of_nth by (rewrite ?length_app; simpl; lia).
    replace (length p + 1) with (S (length p)) by lia.
    replace (firstn (S (length p)) (p ++ c2 :: q)) with (p ++ [c2]).
    2:{ rewrite <- Hlen. change (c2 :: q) with ([c2] ++ q).
        rewrite app_assoc. now rewrite firstn_prefix. }
    rewrite firstn_prefix. symmetry. apply edit_distance_snoc.
Qed.

Lemma lev_outer_step_spec a c s2 :
  lev_outer_step s2 (row_of a s2 (length s2 + 1)) (length a, c) =
  row_of (a ++ [c]) s2 (length s2 + 1).
Proof.
  unfold lev_outer_step, enumerate. simpl fst; simpl snd.
  pose proof (lev_inner_loop_spec a c s2 []) as H. simpl in H.
  rewrite <- H. f_equal.
  unfold row_of. simpl. rewrite edit_distance_nil_r, length_app. reflexivity.
Qed.

Lemma lev_outer_loop_spec s2 q :
  forall p,
    lev_outer_loop s2 (enumerate_from (length p) q)
      (row_of p s2 (length s2 + 1)) =
    row_of (p ++ q) s2 (length s2 + 1).
Proof.
  induction q as [|c q IH]; intros p.
  - simpl. now rewrite app_nil_r.
  - unfold enumerate_from, lev_outer_loop. simpl.
    rewrite lev_outer_step_spec.
    specialize (IH (p ++ [c])). rewrite <- app_assoc in IH. simpl in IH.
    rewrite <- IH. unfold enumerate_from, lev_outer_loop.
    rewrite length_app. simpl. now rewrite (Nat.add_1_r (length p)).
Qed.

Lemma first_row_spec s2 :
  seq 0 (length s2 + 1) = row_of [] s2 (length s2 + 1).
Proof.
  unfold row_of. rewrite <- (map_id (seq 0 (length s2 + 1))) at 1.
  apply map_ext_in. intros j Hj. apply in_seq in Hj.
  rewrite edit_distance_nil_l, length_firstn. lia.
Qed.

Lemma lev_rows_spec s1 s2 : lev_rows s1 s2 = edit_distance s1 s2.
Proof.
  unfold lev_rows. destruct (Nat.eqb_spec (length s2) 0) as [H0|_].
  - apply length_zero_iff_nil in H0. subst s2.
    now rewrite edit_distance_nil_r.
  - rewrite first_row_spec. unfold enumerate.
    pose proof (lev_outer_loop_spec s2 s1 []) as H.
    change (length (@nil char)) with 0 in H. change ([] ++ s1) with s1 in H.
    rewrite H.
    rewrite Nat.add_1_r, row_of_succ, last_last. now rewrite firstn_all.
Qed.

(** The source function is the classic edit distance, whichever argument
    is longer. *)
Lemma levenshtein_distance_spec s1 s2 :
  _levenshtein_distance s1 s2 = edit_distance s1 s2.
Proof.
  unfold _levenshtein_distance.
  destruct (length s1 <? length s2); rewrite lev_rows_spec;
    [apply edit_distance_sym | reflexivity].
Qed.

(** ** The similarity score *)

Lemma Q_of_nat_nonneg n : (0 <= Q_of_nat n)%Q.
Proof.
  unfold Q_of_nat. change 0%Q with (inject_Z 0).
  rewrite <- Zle_Qle. lia.
Qed.

Lemma Q_of_nat_pos n : 0 < n -> (0 < Q_of_nat n)%Q.
Proof.
  intros H. unfold Q_of_nat. change 0%Q with (inject_Z 0).
  rewrite <- Zlt_Qlt. lia.
Qed.

Lemma Q_of_nat_le m n : m <= n -> (Q_of_nat m <= Q_of_nat n)%Q.
Proof. intros H. unfold Q_of_nat. rewrite <- Zle_Qle. lia. Qed.

(** A distance that does not exceed the longer length gives a ratio in
    the unit interval. *)
Lemma ratio_bounds d m :
  0 < m -> d <= m ->
  (0 <= Q_of_nat d / Q_of_nat m /\ Q_of_nat d / Q_of_nat m <= 1)%Q.
Proof.
  intros Hm Hd. pose proof (Q_of_nat_pos Hm) as Hpos. split.
  - apply Qle_shift_div_l; [exact Hpos|].
    rewrite Qmult_0_l. apply Q_of_nat_nonneg.
  - apply Qle_shift_div_r; [exact Hpos|].
    rewrite Qmult_1_l. now apply Q_of_nat_le.
Qed.

Lemma py_min_Qmin x : (py_min x 1 == Qmin 1 x)%Q.
Proof.
  unfold py_min. destruct (Qlt_le_dec 1 x) as [H|H].
  - symmetry. apply Q.min_l. now apply Qlt_le_weak.
  - symmetry. now apply Q.min_r.
Qed.

Lemma is_empty_nil (s : pystr) : is_empty s = true <-> s = [].
Proof. destruct s; simpl; split; congruence. Qed.

Lemma max_length_pos (a b : pystr) :
  is_empty a || is_empty b = false -> 0 < Nat.max (length a) (length b).
Proof.
  destruct a; [discriminate|]. simpl length. lia.
Qed.

Lemma abs_diff_sym m n : abs_diff m n = abs_diff n m.
Proof. unfold abs_diff. now rewrite Nat.max_comm, Nat.min_comm. Qed.

(** C4.  The similarity score is the formula of the specification taken on
    the classic edit distance: for non-empty [a] and [b] it is
    [min(1, (1 - d / max(len a, len b)) + bonus)], where [d] is the least
    cost of an insertion/deletion/substitution script from [a] to [b] and
    the bonus is 0.1 when the lengths differ by at most one; it is 0 when
    either string is empty; and it always lies between 0 and 1. *)
Theorem similarity_is_formula (a b : pystr) :
  is_edit_distance a b (edit_distance a b) /\
  (_calculate_pronunciation_similarity a b == similarity_formula a b)%Q /\
  (0 <= _calculate_pronunciation_similarity a b <= 1)%Q.
Proof.
  split; [apply edit_distance_spec|].
  unfold _calculate_pronunciation_similarity, similarity_formula.
  destruct (is_empty a || is_empty b) eqn:He.
  - split; [reflexivity | split; [apply Qle_refl | discriminate]].
  - pose proof (max_length_pos a b He) as Hpos.
    destruct (Nat.eqb_spec (Nat.max (length a) (length b)) 0) as [H0|_];
      [lia|].
    rewrite levenshtein_distance_spec.
    pose proof (edit_distance_le_max a b) as Hle.
    destruct (ratio_bounds Hpos Hle) as [Hlo Hhi].
    set (r := (Q_of_nat (edit_distance a b)
               / Q_of_nat (Nat.max (length a) (length b)))%Q) in *.
    split.
    + rewrite py_min_Qmin.
      destruct (abs_diff (length a) (length b) <=? 1);
        [reflexivity | now rewrite Qplus_0_r].
    + unfold py_min.
      destruct (abs_diff (length a) (length b) <=? 1);
        match goal with |- context [Qlt_le_dec ?x ?y] =>
          destruct (Qlt_le_dec x y) end; split; lra.
Qed.

(** C5.  The similarity score does not depend on the order of its two
    arguments. *)
Theorem similarity_symmetric (a b : pystr) :
  _calculate_pronunciation_similarity a b =
  _calculate_pronunciation_similarity b a.
Proof.
  unfold _calculate_pronunciation_similarity.
  rewrite (orb_comm (is_empty a)).
  rewrite (levenshtein_distance_spec a b), (levenshtein_distance_spec b a).
  rewrite (edit_distance_sym a b), (Nat.max_comm (length a)).
  now rewrite (abs_diff_sym (length a)).
Qed.

(** C6, as the code has it.  A non-empty pronunciation scores exactly 1
    against itself. *)
Theorem similarity_self (a : pystr) :
  a <> [] -> _calculate_pronunciation_similarity a a = 1%Q.
Proof.
  intros Ha. unfold _calculate_pronunciation_similarity.
  destruct a as [|c a]; [congruence|]. cbn [is_empty orb].
  rewrite levenshtein_distance_spec, edit_distance_refl.
  rewrite Nat.max_id. cbn [length Nat.eqb].
  unfold abs_diff. rewrite Nat.max_id, Nat.min_id, Nat.sub_diag.
  cbn [Nat.leb]. unfold py_min.
  match goal with |- context [Qlt_le_dec ?x ?y] =>
    destruct (Qlt_le_dec x y) as [_|H] end; [reflexivity|].
  exfalso. unfold Q_of_nat in H. change (inject_Z (Z.of_nat 0)) with 0%Q in H.
  assert (E : (0 / inject_Z (Z.of_nat (S (length a))) == 0)%Q)
    by (unfold Qdiv; apply Qmult_0_l).
  rewrite E in H. lra.
Qed.

Lemma similarity_self_witness :
  _calculate_pronunciation_similarity (lit "ami") (lit "ami") = 1%Q.
Proof. apply similarity_self. discriminate. Defined.

(** C6, as stated, fails for a word made of hyphens only: its normalized
    pronunciation is empty and the score against itself is 0. *)
Lemma similarity_self_hyphens_only :
  let a := _generate_pronunciation (lit "---") in
  _calculate_pronunciation_similarity a a = 0%Q /\
  ~ (_calculate_pronunciation_similarity a a == 1)%Q.
Proof. split; [reflexivity | discriminate]. Qed.

(** ** The loop bounds are enough

    Each bounded loop gives the same result for every bound that is at
    least the number of characters still to be read, so the bound
    [len(chars)] used by the callers never cuts a loop short. *)

Section LoopBounds.

Variable self : ProposalAnalyzer.

Lemma coda_loop_ge chars fuel : forall i, i <= coda_loop self fuel chars i.
Proof.
  induction fuel as [|fuel IH]; intros i; simpl; [lia|].
  repeat match goal with
         | |- context [if ?c then _ else _] => destruct c
         end; try lia.
  specialize (IH (i + 1)). lia.
Qed.

Lemma coda_loop_enough chars f1 :
  forall f2 i,
    length chars - i <= f1 -> length chars - i <= f2 ->
    coda_loop self f1 chars i = coda_loop self f2 chars i.
Proof.
  induction f1 as [|f1 IH]; intros [|f2] i H1 H2; simpl; try reflexivity.
  - destruct (Nat.ltb_spec i (length chars)); [lia | reflexivity].
  - destruct (Nat.ltb_spec i (length chars)); [lia | reflexivity].
  - destruct (Nat.ltb_spec i (length chars)); [|reflexivity].
    repeat match goal with
           | |- context [if ?c then _ else _] => destruct c
           end; try reflexivity.
    apply IH; lia.
Qed.

Lemma syllable_loop_enough chars f1 :
  forall f2 i,
    length chars - i <= f1 -> length chars - i <= f2 ->
    syllable_loop self f1 chars i = syllable_loop self f2 chars i.
Proof.
  induction f1 as [|f1 IH]; intros [|f2] i H1 H2; simpl; try reflexivity.
  - destruct (Nat.ltb_spec i (length chars)); [lia | reflexivity].
  - destruct (Nat.ltb_spec i (length chars)); [lia | reflexivity].
  - destruct (Nat.ltb_spec i (length chars)) as [Hi|]; [|reflexivity].
    destruct (onset self chars i) as [i1|] eqn:Ho; [|reflexivity].
    assert (Hge : i <= i1).
    { unfold onset in Ho.
      repeat match type of Ho with
             | (if ?c then _ else _) = _ => destruct c
             end; inversion Ho; lia. }
    destruct ((length chars <=? i1) || negb (is_vowel self (char_at chars i1)));
      [reflexivity|].
    pose proof (coda_loop_ge chars (length chars) (i1 + 1)).
    apply IH; lia.
Qed.

Lemma skip_consonants_ge part fuel :
  forall i, i <= skip_consonants self fuel part i.
Proof.
  induction fuel as [|fuel IH]; intros i; simpl; [lia|].
  destruct ((i <? length part) && is_consonant self (char_at part i));
    [|lia].
  specialize (IH (i + 1)). lia.
Qed.

Lemma skip_consonants_enough part f1 :
  forall f2 i,
    length part - i <= f1 -> length part - i <= f2 ->
    skip_consonants self f1 part i = skip_consonants self f2 part i.
Proof.
  induction f1 as [|f1 IH]; intros [|f2] i H1 H2; simpl; try reflexivity.
  - destruct (Nat.ltb_spec i (length part)); [lia | reflexivity].
  - destruct (Nat.ltb_spec i (length part)); [lia | reflexivity].
  - destruct (Nat.ltb_spec i (length part)); [|reflexivity].
    destruct (is_consonant self (char_at part i)); [|reflexivity].
    apply IH; lia.
Qed.

(** A run that starts on a consonant is at least one character long. *)
Lemma skip_consonants_gt part i :
  i < length part -> is_consonant self (char_at part i) = true ->
  i < skip_consonants self (length part) part i.
Proof.
  intros Hi Hc. destruct (length part) as [|n] eqn:Hn; [lia|].
  simpl. rewrite Hn.
  destruct (Nat.ltb_spec i (S n)); [|lia]. rewrite Hc. simpl.
  pose proof (skip_consonants_ge part n (i + 1)). lia.
Qed.

Lemma cluster_scan_enough part_idx part f1 :
  forall f2 i,
    length part - i <= f1 -> length part - i <= f2 ->
    cluster_scan self f1 part_idx part i = cluster_scan self f2 part_idx part i.
Proof.
  induction f1 as [|f1 IH]; intros [|f2] i H1 H2; simpl; try reflexivity.
  - destruct (Nat.ltb_spec i (length part)); [lia | reflexivity].
  - destruct (Nat.ltb_spec i (length part)); [lia | reflexivity].
  - destruct (Nat.ltb_spec i (length part)) as [Hi|]; [|reflexivity].
    destruct (is_consonant self (char_at part i)) eqn:Hc.
    + pose proof (skip_consonants_gt part Hi Hc).
      repeat match goal with
             | |- context [if ?c then _ else _] => destruct c
             end; try reflexivity; apply IH; lia.
    + apply IH; lia.
Qed.

End LoopBounds.

(** ** Recommendation aggregator *)

(** C2.  Whatever the statuses of the four checks, the recommendation is
    Error if any check is Error; else Reject if any is Fail; else Review if
    any is Warning; else Approve. *)
Theorem recommendation_precedence (results : AnalysisResults) :
  recommendation (_generate_recommendation results) =
  if existsb status_is_error (section_statuses results)
  then Recommendation.ERROR
  else if existsb status_is_fail (section_statuses results)
  then Recommendation.REJECT
  else if existsb status_is_warning (section_statuses results)
  then Recommendation.REVIEW
  else Recommendation.APPROVE.
Proof.
  destruct results as [[p ?] [l ?] [h ?] [s ?] r].
  unfold _generate_recommendation, count_status, section_statuses.
  cbn [status phonotactics lexicon_check homophones semantics].
  destruct p, l, h, s; reflexivity.
Qed.

(** The two definitions of the method in the class body agree, and only
    the recommendation is written. *)
Lemma generate_recommendation_first_same results :
  _generate_recommendation_first results = _generate_recommendation results.
Proof.
  destruct results as [[p ?] [l ?] [h ?] [s ?] r].
  unfold _generate_recommendation_first, _generate_recommendation,
    count_status, section_statuses.
  cbn [status phonotactics lexicon_check homophones semantics].
  destruct p, l, h, s; reflexivity.
Qed.

Lemma generate_recommendation_keeps results :
  section_statuses (_generate_recommendation results) =
  section_statuses results.
Proof.
  unfold _generate_recommendation.
  repeat match goal with
         | |- context [if ?c then _ else _] => destruct c
         end; reflexivity.
Qed.

(** ** Semantic checker *)

(** The status the semantic check writes: the justification test comes
    last and overwrites what the two earlier tests found. *)
Lemma semantics_status self word definition domain justification :
  status (semantics_outcome self word definition domain justification) =
  if is_empty justification then Status.WARNING
  else if is_empty definition then Status.FAIL
  else if str_in domain (valid_domains self) then Status.PASS
  else Status.FAIL.
Proof.
  unfold semantics_outcome.
  destruct (str_in domain (valid_domains self)), (is_empty definition),
    (is_empty justification); reflexivity.
Qed.

(** C1 at a failing input.  An unknown domain and an empty definition each
    record a FAIL message, yet with an empty justification the status ends
    as WARNING and the proposal is sent to review instead of rejected. *)
Theorem semantics_fail_overwritten :
  let results :=
    sample_run (sample_fields (lit "sola") [] (lit "Nowhere") []) in
  status (semantics results) = Status.WARNING /\
  messages (semantics results) =
    [ mark_fail ++ lit "Invalid semantic domain 'Nowhere'";
      mark_fail ++ lit "No definition provided";
      mark_warning ++ lit "No justification provided" ] /\
  recommendation results = Recommendation.REVIEW.
Proof. vm_compute. repeat split. Qed.

(** ** Phonotactic validator: the status is never WARNING *)

Lemma cluster_scan_flag self part_idx part fuel :
  forall i r,
    cluster_scan self fuel part_idx part i = Some r -> snd r = false.
Proof.
  induction fuel as [|fuel IH]; intros i r; simpl; [discriminate|].
  repeat match goal with
         | |- context [if ?c then _ else _] => destruct c
         end;
    try discriminate; try (intros H; injection H as <-; reflexivity);
    apply IH.
Qed.

Lemma cluster_parts_loop_flag self parts :
  snd (cluster_parts_loop self parts) = false.
Proof.
  induction parts as [|[part_idx part] parts IH]; simpl; [reflexivity|].
  destruct (cluster_scan self (length (lower part)) part_idx (lower part) 0)
    as [r|] eqn:E; [|exact IH].
  exact (cluster_scan_flag _ _ _ _ _ E).
Qed.

Lemma validate_consonant_clusters_flag self word :
  snd (_validate_consonant_clusters self word) = false.
Proof. apply cluster_parts_loop_flag. Qed.

Lemma phonotactics_outcome_status set_iteration self word :
  status (phonotactics_outcome set_iteration self word) = Status.PASS \/
  status (phonotactics_outcome set_iteration self word) = Status.FAIL.
Proof.
  unfold phonotactics_outcome.
  pose proof (validate_consonant_clusters_flag self word) as Hflag.
  destruct (_validate_consonant_clusters self word) as [[ok msg] w].
  simpl in Hflag. subst w.
  repeat match goal with
         | |- context [if ?c then _ else _] => destruct c
         end; simpl; auto.
Qed.

(** The pipeline either stops at the gate or runs the four checks. *)
Lemma analyze_proposal_cases set_iteration format_2f self fields results :
  let word := strip (f_word fields) in
  (exists message,
     analyze_proposal set_iteration format_2f self fields results =
     _set_critical_error message results) \/
  (is_empty word = false /\ length word <= 50 /\
   matches_word_pattern word = true /\
   phonotactics
     (analyze_proposal set_iteration format_2f self fields results) =
   phonotactics_outcome set_iteration self word /\
   lexicon_check
     (analyze_proposal set_iteration format_2f self fields results) =
   lexicon_outcome self word (strip (f_domain fields)) /\
   semantics
     (analyze_proposal set_iteration format_2f self fields results) =
   semantics_outcome self word (strip (f_definition fields))
     (strip (f_domain fields)) (strip (f_justification fields))).
Proof.
  intros word. unfold analyze_proposal. fold word.
  destruct (is_empty word) eqn:He; [left; eauto|].
  destruct (Nat.ltb_spec 50 (length word)) as [|Hlen]; [left; eauto|].
  destruct (matches_word_pattern word) eqn:Hm; cbn [negb]; [|left; eauto].
  right. repeat split; try assumption.
  - unfold _generate_recommendation.
    repeat match goal with
           | |- context [if ?c then _ else _] => destruct c
           end; reflexivity.
  - unfold _generate_recommendation.
    repeat match goal with
           | |- context [if ?c then _ else _] => destruct c
           end; reflexivity.
  - unfold _generate_recommendation.
    repeat match goal with
           | |- context [if ?c then _ else _] => destruct c
           end; reflexivity.
Qed.

(** C10.  The cluster validator always returns its warning flag as False;
    hence the phonotactic check itself ends in PASS or FAIL, and in the
    result of the pipeline the phonotactics status is PASS, FAIL or ERROR,
    never WARNING. *)
Theorem phonotactics_never_warning set_iteration format_2f self :
  (forall word, snd (_validate_consonant_clusters self word) = false) /\
  (forall word,
     status (phonotactics_outcome set_iteration self word) = Status.PASS \/
     status (phonotactics_outcome set_iteration self word) = Status.FAIL) /\
  (forall fields results,
     let s :=
       status (phonotactics
                 (analyze_proposal set_iteration format_2f self
                    fields results)) in
     s = Status.PASS \/ s = Status.FAIL \/ s = Status.ERROR).
Proof.
  split; [apply validate_consonant_clusters_flag|].
  split; [apply phonotactics_outcome_status|].
  intros fields results s. subst s.
  destruct (analyze_proposal_cases set_iteration format_2f self fields results)
    as [[message ->]|(_ & _ & _ & -> & _)].
  - right; right; reflexivity.
  - destruct (phonotactics_outcome_status set_iteration self
                (strip (f_word fields))) as [->| ->]; auto.
Qed.

(** ** The gate before the checks *)

Lemma lstrip_head s c r : lstrip s = c :: r -> is_space c = false.
Proof.
  induction s as [|x s IH]; simpl; [discriminate|].
  destruct (is_space x) eqn:Hx; [exact IH|].
  intros H. injection H as <- _. exact Hx.
Qed.

(** A stripped string does not end with white space. *)
Lemma strip_last s c r : rev (strip s) = c :: r -> is_space c = false.
Proof.
  unfold strip, rstrip. rewrite rev_involutive. apply lstrip_head.
Qed.

(** On a stripped word the pattern holds exactly when the word is not
    empty and every character is a letter or a hyphen. *)
Lemma matches_word_pattern_stripped s :
  matches_word_pattern (strip s) =
  negb (is_empty (strip s)) && forallb is_word_char (strip s).
Proof.
  unfold matches_word_pattern.
  destruct (rev (strip s)) as [|c r] eqn:E; [reflexivity|].
  pose proof (strip_last _ E) as Hc.
  destruct (char_eqb c newline) eqn:Hn; [|reflexivity].
  apply N.eqb_eq in Hn. subst c. discriminate.
Qed.

(** C3.  When the candidate word (the word field with surrounding white
    space removed, as the pipeline reads it) is empty, or longer than 50
    characters, or has a character that is not an ASCII letter or a hyphen,
    no check runs: the result is the critical-error state, in which all
    four statuses are ERROR, each with the one error message, and the
    recommendation is ERROR. *)
Theorem pre_gate_error set_iteration format_2f self fields results :
  let word := strip (f_word fields) in
  word = [] \/ 50 < length word \/
  (exists c, In c word /\ is_word_char c = false) ->
  exists message,
    let outcome :=
      {| status := Status.ERROR; messages := [mark_error ++ message] |} in
    analyze_proposal set_iteration format_2f self fields results =
    {| phonotactics := outcome; lexicon_check := outcome;
       homophones := outcome; semantics := outcome;
       recommendation := Recommendation.ERROR |}.
Proof.
  intros word H.
  destruct (analyze_proposal_cases set_iteration format_2f self fields results)
    as [[message ->]|(He & Hlen & Hm & _)].
  - exists message. reflexivity.
  - exfalso. fold word in He, Hlen, Hm.
    destruct H as [H|[H|(c & Hin & Hc)]].
    + rewrite H in He. discriminate.
    + lia.
    + unfold word in Hm. rewrite matches_word_pattern_stripped in Hm.
      apply andb_true_iff in Hm as [_ Hall].
      rewrite forallb_forall in Hall. specialize (Hall c Hin). congruence.
Qed.

Lemma pre_gate_error_witness :
  exists message,
    sample_run (sample_fields (lit "test@word!") (lit "test")
                  (lit "General") (lit "test")) =
    _set_critical_error message initial_results.
Proof.
  apply (pre_gate_error sample_set_iteration format_two_places sample_analyzer
           (sample_fields (lit "test@word!") (lit "test") (lit "General")
              (lit "test")) initial_results).
  right; right. exists 64%N. split; [vm_compute; tauto | reflexivity].
Defined.

(** ** Lexicon consistency checker *)

Section LexiconFacts.

Variable self : ProposalAnalyzer.

Lemma in_lexicon_get word :
  in_lexicon self word = false <-> lexicon_get (lexicon self) word = None.
Proof.
  unfold in_lexicon.
  destruct (lexicon_get (lexicon self) word); split; congruence.
Qed.

(** With a root missing, the loop stops at the first such root. *)
Lemma verify_roots_loop_missing roots :
  forall acc,
    (exists root, In root roots /\ in_lexicon self root = false) ->
    exists root,
      In root roots /\ in_lexicon self root = false /\
      verify_roots_loop self roots acc = (false, root_missing_message root, []).
Proof.
  induction roots as [|r roots IH]; intros acc [root [Hin Hmiss]];
    [destruct Hin|].
  simpl. destruct (lexicon_get (lexicon self) r) as [e|] eqn:Hr.
  - destruct Hin as [<-|Hin].
    + apply in_lexicon_get in Hmiss. congruence.
    + destruct (IH (acc ++
          [mark_pass ++ lit "Root '" ++ r ++ lit "' exists in lexicon ("
           ++ get_or_unknown (entry_domain e) ++ lit ": "
           ++ get_or_unknown (entry_definition e) ++ lit ")"]))
        as (root' & Hin' & Hmiss' & Heq); [eauto|].
      exists root'. auto.
  - exists r. split; [now left|]. split; [now apply in_lexicon_get|].
    reflexivity.
Qed.

(** With every root present, the loop reports success. *)
Lemma verify_roots_loop_present roots :
  forall acc,
    (forall root, In root roots -> in_lexicon self root = true) ->
    exists msgs, verify_roots_loop self roots acc = (true, [], msgs).
Proof.
  induction roots as [|r roots IH]; intros acc Hall; simpl; [eauto|].
  pose proof (Hall r (or_introl eq_refl)) as Hr. unfold in_lexicon in Hr.
  destruct (lexicon_get (lexicon self) r) as [e|]; [|discriminate].
  apply IH. intros root Hin. apply Hall. now right.
Qed.

Lemma verify_roots_loop_fails roots :
  forall acc,
    fst (fst (verify_roots_loop self roots acc)) = false ->
    exists root, In root roots /\ in_lexicon self root = false.
Proof.
  induction roots as [|r roots IH]; intros acc; simpl; [discriminate|].
  destruct (lexicon_get (lexicon self) r) as [e|] eqn:Hr.
  - intros H. destruct (IH _ H) as (root & Hin & Hmiss). eauto.
  - intros _. exists r. split; [now left | now apply in_lexicon_get].
Qed.

(** C7.  A word that is a key of the lexicon gets status FAIL, and the
    first message quotes the definition stored for it (the text [unknown]
    if the entry carries none).  For a word that is not a key the first
    message is the PASS message of the duplicate test, and the status is
    FAIL only through the root test of a compound. *)
Theorem duplicate_word_detection (word domain : pystr) :
  let outcome := lexicon_outcome self word domain in
  match lexicon_get (lexicon self) word with
  | Some entry =>
      status outcome = Status.FAIL /\
      exists rest,
        messages outcome =
        (mark_fail ++ lit "Word '" ++ word
         ++ lit "' already exists in lexicon with definition: "
         ++ get_or_unknown (entry_definition entry)) :: rest
  | None =>
      (exists rest, messages outcome = word_is_new_message word :: rest) /\
      (status outcome = Status.FAIL <->
       has_hyphen word = true /\
       exists root,
         In root (split_hyphen word) /\ in_lexicon self root = false)
  end.
Proof.
  intros outcome. subst outcome. unfold lexicon_outcome.
  destruct (lexicon_get (lexicon self) word) as [entry|] eqn:Hw.
  - destruct (has_hyphen word);
      [destruct (_verify_compound_roots self word) as [[ok err] msgs];
       destruct ok|];
      simpl; split; try reflexivity; eexists; reflexivity.
  - destruct (has_hyphen word) eqn:Hh.
    + pose proof (@verify_roots_loop_fails (split_hyphen word) []) as Hfail.
      fold (_verify_compound_roots self word) in Hfail.
      destruct (_verify_compound_roots self word) as [[ok err] msgs] eqn:Hv.
      destruct ok; cbn [negb andb status_is_fail].
      * assert (Hall : forall root, In root (split_hyphen word) ->
                                    in_lexicon self root = true).
        { intros root Hin.
          destruct (in_lexicon self root) eqn:Hr; [reflexivity|].
          destruct (@verify_roots_loop_missing (split_hyphen word) []
                      (ex_intro _ root (conj Hin Hr)))
            as (r' & _ & _ & Heq).
          unfold _verify_compound_roots in Hv. congruence. }
        destruct (_check_compound_domain_consistency self word domain)
          as [consistent msg].
        destruct consistent; simpl; (split; [eexists; reflexivity|]);
          (split; [discriminate|]);
          intros [_ (root & Hin & Hr)]; rewrite (Hall root Hin) in Hr;
          discriminate.
      * simpl. split; [eexists; reflexivity|].
        split; [intros _; split; [reflexivity | now apply Hfail] | reflexivity].
    + simpl. split; [eexists; reflexivity|].
      split; [discriminate | intros [H _]; discriminate].
Qed.

(** C8.  For a hyphenated word with a segment that is not in the lexicon,
    the status is FAIL and the messages are exactly two: the message of the
    duplicate test and the failure naming a missing segment, so the domain
    test has not run.  When every segment is in the lexicon the status is
    FAIL only if the word itself is already a key. *)
Theorem root_existence_check (word domain : pystr) :
  has_hyphen word = true ->
  let outcome := lexicon_outcome self word domain in
  let roots := split_hyphen word in
  ((exists root, In root roots /\ in_lexicon self root = false) ->
   status outcome = Status.FAIL /\
   exists root,
     In root roots /\ in_lexicon self root = false /\
     messages outcome =
     [ duplicate_message self word;
       mark_fail ++ lit "Root word '" ++ root ++ lit "' not found in lexicon" ])
  /\
  ((forall root, In root roots -> in_lexicon self root = true) ->
   (status outcome = Status.FAIL <-> in_lexicon self word = true) /\
   (status outcome = Status.PASS \/ status outcome = Status.WARNING \/
    in_lexicon self word = true)).
Proof.
  intros Hh outcome roots. subst outcome roots.
  unfold lexicon_outcome, duplicate_message.
  rewrite Hh. split.
  - intros Hmiss.
    destruct (@verify_roots_loop_missing (split_hyphen word) [] Hmiss)
      as (root & Hin & Hr & Heq).
    unfold _verify_compound_roots. rewrite Heq.
    destruct (lexicon_get (lexicon self) word); simpl;
      (split; [reflexivity|]); exists root; auto.
  - intros Hall.
    destruct (@verify_roots_loop_present (split_hyphen word) [] Hall)
      as (msgs & Heq).
    unfold _verify_compound_roots. rewrite Heq.
    destruct (_check_compound_domain_consistency self word domain)
      as [consistent msg].
    assert (Hkey : in_lexicon self word =
                   match lexicon_get (lexicon self) word with
                   | Some _ => true
                   | None => false
                   end) by reflexivity.
    rewrite Hkey.
    destruct (lexicon_get (lexicon self) word), consistent; simpl;
      (split; [split; congruence | auto]).
Qed.

End LexiconFacts.

Lemma root_existence_check_witness :
  let outcome :=
    lexicon_outcome sample_analyzer (lit "ami-sol") (lit "Emotion") in
  status outcome = Status.FAIL /\
  exists root,
    In root (split_hyphen (lit "ami-sol")) /\
    in_lexicon sample_analyzer root = false /\
    messages outcome =
    [ duplicate_message sample_analyzer (lit "ami-sol");
      mark_fail ++ lit "Root word '" ++ root ++ lit "' not found in lexicon" ].
Proof.
  apply (proj1 (root_existence_check sample_analyzer (lit "ami-sol")
                  (lit "Emotion") eq_refl)).
  exists (lit "sol"). split; [vm_compute; tauto | reflexivity].
Defined.

(** ** Phonotactic validator: invalid phonemes *)

Lemma invalid_phonemes_of_spec self word c :
  In c (invalid_phonemes_of self word) <->
  In c (lower (remove_hyphens word)) /\
  char_in c (valid_phonemes self) = false.
Proof.
  unfold invalid_phonemes_of. rewrite filter_In, negb_true_iff. reflexivity.
Qed.

(** Once a character is not a phoneme the status is FAIL whatever the later
    steps find, and the first message lists the offending characters as the
    set yields them. *)
Lemma phonotactics_outcome_invalid set_iteration self word :
  invalid_phonemes_of self word <> [] ->
  status (phonotactics_outcome set_iteration self word) = Status.FAIL /\
  exists rest,
    messages (phonotactics_outcome set_iteration self word) =
    invalid_phonemes_message (set_iteration (invalid_phonemes_of self word))
    :: rest.
Proof.
  intros Hne. unfold phonotactics_outcome.
  destruct (invalid_phonemes_of self word) as [|c l] eqn:Hinv; [congruence|].
  cbn [is_empty negb].
  pose proof (validate_consonant_clusters_flag self word) as Hflag.
  destruct (_validate_consonant_clusters self word) as [[ok msg] w].
  simpl in Hflag. subst w.
  repeat match goal with
         | |- context [if ?b then _ else _] => destruct b
         end; simpl; (split; [reflexivity | eexists; reflexivity]).
Qed.

(** Past the gate the four outcomes are those of the four checks. *)
Lemma analyze_proposal_runs set_iteration format_2f self fields results :
  let word := strip (f_word fields) in
  word <> [] -> length word <= 50 ->
  (forall c, In c word -> is_word_char c = true) ->
  phonotactics (analyze_proposal set_iteration format_2f self fields results)
  = phonotactics_outcome set_iteration self word.
Proof.
  intros word Hne Hlen Hall.
  destruct (analyze_proposal_cases set_iteration format_2f self fields results)
    as [[message Heq]|(_ & _ & _ & Heq & _)]; [|exact Heq].
  exfalso. revert Heq. unfold analyze_proposal. fold word.
  destruct (is_empty word) eqn:He; [apply is_empty_nil in He; congruence|].
  destruct (Nat.ltb_spec 50 (length word)); [lia|].
  unfold word at 1. rewrite matches_word_pattern_stripped. fold word.
  rewrite He. apply forallb_forall in Hall. rewrite Hall. cbn [negb andb].
  unfold _generate_recommendation, _set_critical_error.
  pose proof (phonotactics_outcome_status set_iteration self word) as Hs.
  repeat match goal with
         | |- context [if ?b then _ else _] => destruct b
         end;
    intros Heq; apply (f_equal (fun r => status (phonotactics r))) in Heq;
    simpl in Heq; rewrite Heq in Hs; destruct Hs; discriminate.
Qed.

(** C9.  For a candidate word that passes the gate and, hyphens removed and
    lower-cased, has a character outside the phoneme inventory, the
    phonotactics status is FAIL and the first message is the failure
    message whose list of names has no repetition and holds exactly the
    offending characters, in whatever order the set of them is iterated. *)
Theorem invalid_phonemes_reported
    set_iteration format_2f self fields results :
  (forall l, Permutation (set_iteration l) (nodup N.eq_dec l)) ->
  let word := strip (f_word fields) in
  let clean_word := lower (remove_hyphens word) in
  word <> [] -> length word <= 50 ->
  (forall c, In c word -> is_word_char c = true) ->
  (exists c, In c clean_word /\ char_in c (valid_phonemes self) = false) ->
  let outcome :=
    phonotactics
      (analyze_proposal set_iteration format_2f self fields results) in
  status outcome = Status.FAIL /\
  exists names rest,
    messages outcome =
    (mark_fail ++ lit "Invalid phonemes found: "
     ++ join (lit ", ") (map singleton names)) :: rest /\
    NoDup names /\
    forall c,
      In c names <->
      In c clean_word /\ char_in c (valid_phonemes self) = false.
Proof.
  intros Hset word clean_word Hne Hlen Hall (c0 & Hin0 & Hc0) outcome.
  subst outcome.
  rewrite (analyze_proposal_runs set_iteration format_2f self fields results
             Hne Hlen Hall).
  fold word.
  assert (Hinv : invalid_phonemes_of self word <> []).
  { intros E. assert (H : In c0 (invalid_phonemes_of self word))
      by (apply invalid_phonemes_of_spec; auto).
    rewrite E in H. destruct H. }
  destruct (@phonotactics_outcome_invalid set_iteration self word Hinv)
    as [Hst [rest Hm]].
  split; [exact Hst|].
  exists (set_iteration (invalid_phonemes_of self word)), rest.
  split; [exact Hm|]. split.
  - apply (Permutation_NoDup (Permutation_sym (Hset _))), NoDup_nodup.
  - intros c. unfold clean_word. rewrite <- invalid_phonemes_of_spec.
    split; intros H.
    + apply (Permutation_in _ (Hset _)) in H. now apply nodup_In in H.
    + apply (Permutation_in _ (Permutation_sym (Hset _))).
      now apply nodup_In.
Qed.

Lemma invalid_phonemes_reported_witness :
  let outcome :=
    phonotactics
      (sample_run (sample_fields (lit "xyz-qua") (lit "test") (lit "Emotion")
                     (lit "test"))) in
  status outcome = Status.FAIL /\
  exists names rest,
    messages outcome =
    (mark_fail ++ lit "Invalid phonemes found: "
     ++ join (lit ", ") (map singleton names)) :: rest /\
    NoDup names /\
    forall c,
      In c names <->
      In c (lit "xyzqua") /\
      char_in c (valid_phonemes sample_analyzer) = false.
Proof.
  apply (invalid_phonemes_reported sample_set_iteration format_two_places
           sample_analyzer
           (sample_fields (lit "xyz-qua") (lit "test") (lit "Emotion")
              (lit "test")) initial_results).
  - intros l. apply Permutation_refl.
  - discriminate.
  - vm_compute. lia.
  - apply forallb_forall. reflexivity.
  - exists 120%N. split; [vm_compute; tauto | reflexivity].
Defined.

(** ** The end-to-end scenarios of the specification, on the sample
    analyzer *)

Example scenario_compound_approved :
  recommendation
    (sample_run (sample_fields (lit "ami-lum") (lit "warm light")
                   (lit "Emotion") (lit "from ami and lum")))
  = Recommendation.APPROVE.
Proof. vm_compute. reflexivity. Qed.

Example scenario_illegal_phonemes_rejected :
  let results :=
    sample_run (sample_fields (lit "xyz-qua") (lit "test") (lit "Emotion")
                  (lit "test")) in
  status (phonotactics results) = Status.FAIL /\
  recommendation results = Recommendation.REJECT.
Proof. vm_compute. split; reflexivity. Qed.

Example scenario_empty_input_error :
  recommendation (sample_run (sample_fields [] [] [] []))
  = Recommendation.ERROR.
Proof. vm_compute. reflexivity. Qed.

Example scenario_long_word_error :
  recommendation
    (sample_run (sample_fields (repeat 97%N 100) (lit "test")
                   (lit "Emotion") (lit "test")))
  = Recommendation.ERROR.
Proof. vm_compute. reflexivity. Qed.

Example scenario_near_homophone_review :
  let results :=
    sample_run (sample_fields (lit "amie") (lit "a companion")
                  (lit "Emotion") (lit "variant of ami")) in
  messages (homophones results) =
    [ mark_warning ++ lit "Similar pronunciation to existing words:";
      lit "  " ++ [8226%N] ++ lit " 'ami' (friend) - similarity: 0.85" ] /\
  recommendation results = Recommendation.REVIEW.
Proof. vm_compute. split; reflexivity. Qed.

Example levenshtein_kitten_sitting :
  _levenshtein_distance (lit "kitten") (lit "sitting") = 3 /\
  _levenshtein_distance (lit "sitting") (lit "kitten") = 3.
Proof. split; reflexivity. Qed.

(* ================================================================= *)
(** * Further properties of the code *)

(** ** The edit distance is a metric *)

Lemma edit_zero a b n : edit a b n -> n = 0 -> a = b.
Proof.
  induction 1 as [|x a b n _ _|y a b n _ _|x y a b n _ IH]; intros Hn;
    try reflexivity; try discriminate.
  assert (Hxy : neq x y = 0) by lia.
  unfold neq, char_eqb in Hxy. destruct (N.eqb_spec x y); [|discriminate].
  subst y. f_equal. apply IH. lia.
Qed.

Lemma edit_length_gap a b n :
  edit a b n -> abs_diff (length a) (length b) <= n.
Proof.
  unfold abs_diff. induction 1; cbn [length]; lia.
Qed.

Lemma neq_triangle x y z : neq x z <= neq x y + neq y z.
Proof.
  unfold neq, char_eqb.
  destruct (N.eqb_spec x z), (N.eqb_spec x y), (N.eqb_spec y z);
    try lia; congruence.
Qed.

(** Two scripts in a row are never cheaper than the best direct one. *)
Lemma edit_compose a b n :
  edit a b n -> forall c m, edit b c m -> exists k, k <= n + m /\ edit a c k.
Proof.
  induction 1 as [|x a b n _ IH|y a b n _ IH|x y a b n _ IH]; intros c m H2.
  - exists m. split; [lia | exact H2].
  - destruct (IH c m H2) as (k & Hk & Hedit).
    exists (S k). split; [lia | now apply edit_del].
  - remember (y :: b) as yb eqn:Eyb.
    induction H2 as [|y' b' c m' H2 _|z b' c m' H2 IH2|y' z b' c m' H2 _];
      try discriminate.
    + injection Eyb as -> ->.
      destruct (IH c m' H2) as (k & Hk & Hedit).
      exists k. split; [lia | exact Hedit].
    + destruct (IH2 Eyb) as (k & Hk & Hedit).
      exists (S k). split; [lia | now apply edit_ins].
    + injection Eyb as -> ->.
      destruct (IH c m' H2) as (k & Hk & Hedit).
      exists (S k). split; [lia | now apply edit_ins].
  - remember (y :: b) as yb eqn:Eyb.
    induction H2 as [|y' b' c m' H2 _|z b' c m' H2 IH2|y' z b' c m' H2 _];
      try discriminate.
    + injection Eyb as -> ->.
      destruct (IH c m' H2) as (k & Hk & Hedit).
      exists (S k). split; [lia | now apply edit_del].
    + destruct (IH2 Eyb) as (k & Hk & Hedit).
      exists (S k). split; [lia | now apply edit_ins].
    + injection Eyb as -> ->.
      destruct (IH c m' H2) as (k & Hk & Hedit).
      exists (k + neq x z). pose proof (neq_triangle x y z).
      split; [lia | now apply edit_sub].
Qed.

(** X1.  The distance [_levenshtein_distance] returns is 0 exactly when the
    two strings are equal. *)
Theorem levenshtein_zero_iff_equal (s1 s2 : pystr) :
  _levenshtein_distance s1 s2 = 0 <-> s1 = s2.
Proof.
  rewrite levenshtein_distance_spec. split.
  - intros H. apply (edit_zero (edit_distance_is_edit s1 s2) H).
  - intros ->. apply edit_distance_refl.
Qed.

(** X2.  The distance is at least the difference of the two lengths and at
    most the longer length. *)
Theorem levenshtein_bounds (s1 s2 : pystr) :
  abs_diff (length s1) (length s2) <= _levenshtein_distance s1 s2 /\
  _levenshtein_distance s1 s2 <= Nat.max (length s1) (length s2).
Proof.
  rewrite levenshtein_distance_spec. split.
  - apply edit_length_gap, edit_distance_is_edit.
  - apply edit_distance_le_max.
Qed.

(** X3.  The distance satisfies the triangle inequality. *)
Theorem levenshtein_triangle (s1 s2 s3 : pystr) :
  _levenshtein_distance s1 s3 <=
  _levenshtein_distance s1 s2 + _levenshtein_distance s2 s3.
Proof.
  rewrite !levenshtein_distance_spec.
  destruct (edit_compose (edit_distance_is_edit s1 s2)
              (edit_distance_is_edit s2 s3)) as (k & Hk & Hedit).
  apply edit_distance_least in Hedit. lia.
Qed.

(** ** The pipeline as a whole *)

Section Pipeline.

Variable set_iteration : list char -> list char.
Variable format_2f : Q -> pystr.
Variable self : ProposalAnalyzer.

(** A list on which a test fails somewhere has an element failing it. *)
Lemma forallb_false_witness (f : char -> bool) (l : list char) :
  forallb f l = false -> exists c, In c l /\ f c = false.
Proof.
  induction l as [|c l IH]; [discriminate|]. simpl.
  destruct (f c) eqn:Hc.
  - intros H. destruct (IH H) as (c' & Hin & Hc'). eauto.
  - intros _. exists c. auto.
Qed.

(** The three tests of the gate, on a stripped word, in logical form. *)
Lemma gate_open_iff s :
  let word := strip s in
  (is_empty word = false /\ length word <= 50 /\
   matches_word_pattern word = true) <->
  ~ (word = [] \/ 50 < length word \/
     exists c, In c word /\ is_word_char c = false).
Proof.
  intros word. unfold word at 3. rewrite matches_word_pattern_stripped.
  fold word. split.
  - intros (He & Hlen & Hm) [H|[H|(c & Hin & Hc)]].
    + rewrite H in He. discriminate.
    + lia.
    + rewrite He in Hm. cbn [negb andb] in Hm.
      rewrite forallb_forall in Hm. rewrite (Hm c Hin) in Hc. discriminate.
  - intros Hno.
    assert (He : is_empty word = false).
    { destruct word as [|c w] eqn:E; [|reflexivity]. exfalso; auto. }
    split; [exact He|]. split; [lia|].
    rewrite He. cbn [negb andb].
    destruct (forallb is_word_char word) eqn:Hall; [reflexivity|].
    exfalso. apply Hno. right; right.
    now apply forallb_false_witness.
Qed.

(** Past the gate the result is the recommendation computed over the four
    outcomes of the checks. *)
Lemma analyze_proposal_open fields results :
  let word := strip (f_word fields) in
  is_empty word = false -> length word <= 50 ->
  matches_word_pattern word = true ->
  analyze_proposal set_iteration format_2f self fields results =
  _generate_recommendation
    {| phonotactics := phonotactics_outcome set_iteration self word;
       lexicon_check := lexicon_outcome self word (strip (f_domain fields));
       homophones := homophones_outcome format_2f self word;
       semantics :=
         semantics_outcome self word (strip (f_definition fields))
           (strip (f_domain fields)) (strip (f_justification fields));
       recommendation := recommendation results |}.
Proof.
  intros word He Hlen Hm. unfold analyze_proposal. fold word.
  rewrite He, Hm. destruct (Nat.ltb_spec 50 (length word)); [lia|].
  reflexivity.
Qed.

Lemma lexicon_outcome_status word domain :
  status (lexicon_outcome self word domain) = Status.PASS \/
  status (lexicon_outcome self word domain) = Status.WARNING \/
  status (lexicon_outcome self word domain) = Status.FAIL.
Proof.
  unfold lexicon_outcome.
  destruct (lexicon_get (lexicon self) word), (has_hyphen word);
    try destruct (_verify_compound_roots self word) as [[[|] err] msgs];
    try destruct (_check_compound_domain_consistency self word domain)
      as [[|] msg];
    simpl; auto.
Qed.

Lemma homophones_outcome_status word :
  status (homophones_outcome format_2f self word) = Status.PASS \/
  status (homophones_outcome format_2f self word) = Status.WARNING.
Proof.
  unfold homophones_outcome.
  destruct (_find_similar_pronunciations self word
              (_generate_pronunciation word)) as [|sw others];
    [left; reflexivity|].
  match goal with |- context [if ?c then _ else _] => destruct c end;
    right; reflexivity.
Qed.

Lemma semantics_outcome_status word definition domain justification :
  status (semantics_outcome self word definition domain justification)
  = Status.PASS \/
  status (semantics_outcome self word definition domain justification)
  = Status.WARNING \/
  status (semantics_outcome self word definition domain justification)
  = Status.FAIL.
Proof.
  rewrite semantics_status.
  destruct (is_empty justification), (is_empty definition),
    (str_in domain (valid_domains self)); auto.
Qed.

Lemma lexicon_outcome_duplicate word domain entry :
  lexicon_get (lexicon self) word = Some entry ->
  status (lexicon_outcome self word domain) = Status.FAIL.
Proof.
  intros Hw. unfold lexicon_outcome. rewrite Hw.
  destruct (has_hyphen word);
    try destruct (_verify_compound_roots self word) as [[[|] err] msgs];
    reflexivity.
Qed.

(** What the aggregator returns over statuses of which none is ERROR or
    PENDING. *)
Lemma generate_recommendation_checked p l h s r :
  (status p = Status.PASS \/ status p = Status.FAIL) ->
  (status l = Status.PASS \/ status l = Status.WARNING \/
   status l = Status.FAIL) ->
  (status h = Status.PASS \/ status h = Status.WARNING) ->
  (status s = Status.PASS \/ status s = Status.WARNING \/
   status s = Status.FAIL) ->
  let results :=
    _generate_recommendation
      {| phonotactics := p; lexicon_check := l; homophones := h;
         semantics := s; recommendation := r |} in
  phonotactics results = p /\ lexicon_check results = l /\
  homophones results = h /\ semantics results = s /\
  recommendation results <> Recommendation.ERROR /\
  recommendation results <> Recommendation.PENDING /\
  (recommendation results = Recommendation.APPROVE <->
   status p = Status.PASS /\ status l = Status.PASS /\
   status h = Status.PASS /\ status s = Status.PASS) /\
  (recommendation results = Recommendation.REJECT <->
   status p = Status.FAIL \/ status l = Status.FAIL \/
   status s = Status.FAIL).
Proof.
  destruct p as [ps pm], l as [ls lm], h as [hs hm], s as [ss sm].
  cbn [status].
  intros [-> | ->] [-> | [-> | ->]] [-> | ->] [-> | [-> | ->]];
    cbv; repeat split; try discriminate; try tauto; try congruence;
    try (intros [H|[H|H]]; discriminate);
    try (intros (H1 & H2 & H3 & H4); discriminate).
Qed.

(** The statuses and the recommendation past the gate. *)
Lemma analyze_proposal_checked fields results :
  let word := strip (f_word fields) in
  let run := analyze_proposal set_iteration format_2f self fields results in
  is_empty word = false -> length word <= 50 ->
  matches_word_pattern word = true ->
  phonotactics run = phonotactics_outcome set_iteration self word /\
  lexicon_check run = lexicon_outcome self word (strip (f_domain fields)) /\
  recommendation run <> Recommendation.ERROR /\
  recommendation run <> Recommendation.PENDING /\
  (recommendation run = Recommendation.APPROVE <->
   status (phonotactics run) = Status.PASS /\
   status (lexicon_check run) = Status.PASS /\
   status (homophones run) = Status.PASS /\
   status (semantics run) = Status.PASS) /\
  (recommendation run = Recommendation.REJECT <->
   status (phonotactics run) = Status.FAIL \/
   status (lexicon_check run) = Status.FAIL \/
   status (semantics run) = Status.FAIL).
Proof.
  intros word run He Hlen Hm. subst run.
  rewrite (@analyze_proposal_open fields results He Hlen Hm). fold word.
  destruct (@generate_recommendation_checked
              (phonotactics_outcome set_iteration self word)
              (lexicon_outcome self word (strip (f_domain fields)))
              (homophones_outcome format_2f self word)
              (semantics_outcome self word (strip (f_definition fields))
                 (strip (f_domain fields)) (strip (f_justification fields)))
              (recommendation results)
              (phonotactics_outcome_status set_iteration self word)
              (lexicon_outcome_status word (strip (f_domain fields)))
              (homophones_outcome_status word)
              (semantics_outcome_status word (strip (f_definition fields))
                 (strip (f_domain fields)) (strip (f_justification fields))))
    as (Hp & Hl & Hh & Hs & Herr & Hpend & Happ & Hrej).
  rewrite Hp, Hl, Hh, Hs. auto 10.
Qed.

(** X4.  The recommendation is ERROR exactly when the gate stops the
    proposal: the word, stripped, is empty, longer than 50 characters, or
    has a character that is not an ASCII letter or a hyphen.  (Fields and
    lexicon entries being strings, no check raises.) *)
Theorem error_exactly_at_gate fields results :
  let word := strip (f_word fields) in
  recommendation
    (analyze_proposal set_iteration format_2f self fields results)
  = Recommendation.ERROR <->
  (word = [] \/ 50 < length word \/
   exists c, In c word /\ is_word_char c = false).
Proof.
  intros word.
  destruct (is_empty word) eqn:He.
  { unfold analyze_proposal. fold word. rewrite He.
    split; [intros _; left; now apply is_empty_nil | reflexivity]. }
  destruct (Nat.ltb_spec 50 (length word)) as [Hlong|Hlen].
  { unfold analyze_proposal. fold word. rewrite He.
    destruct (Nat.ltb_spec 50 (length word)); [|lia].
    split; [auto | reflexivity]. }
  destruct (matches_word_pattern word) eqn:Hm.
  - destruct (@analyze_proposal_checked fields results He Hlen Hm)
      as (_ & _ & Herr & _).
    split; [intros H; now apply Herr in H|].
    intros Hviol. exfalso.
    apply (proj1 (gate_open_iff (f_word fields))); auto.
  - split.
    + intros _. right; right. unfold word in Hm.
      rewrite matches_word_pattern_stripped in Hm. fold word in Hm.
      rewrite He in Hm. now apply forallb_false_witness.
    + intros _. unfold analyze_proposal. fold word. rewrite He, Hm.
      destruct (Nat.ltb_spec 50 (length word)); [lia | reflexivity].
Qed.

(** X5.  A proposal is approved exactly when all four checks end in PASS;
    in particular no check is left PENDING and none in WARNING or FAIL is
    ever approved. *)
Theorem approve_iff_all_pass fields results :
  let run := analyze_proposal set_iteration format_2f self fields results in
  recommendation run = Recommendation.APPROVE <->
  status (phonotactics run) = Status.PASS /\
  status (lexicon_check run) = Status.PASS /\
  status (homophones run) = Status.PASS /\
  status (semantics run) = Status.PASS.
Proof.
  intros run.
  destruct (analyze_proposal_cases set_iteration format_2f self fields results)
    as [[message Heq]|(He & Hlen & Hm & _)].
  - subst run. rewrite Heq. simpl.
    split; [discriminate | intros (H & _); discriminate].
  - apply (@analyze_proposal_checked fields results He Hlen Hm).
Qed.

(** X6.  A word that passes the gate and is already a key of the lexicon
    is rejected, whatever its definition, domain and justification. *)
Theorem duplicate_word_rejected fields results entry :
  let word := strip (f_word fields) in
  word <> [] -> length word <= 50 ->
  (forall c, In c word -> is_word_char c = true) ->
  lexicon_get (lexicon self) word = Some entry ->
  recommendation
    (analyze_proposal set_iteration format_2f self fields results)
  = Recommendation.REJECT.
Proof.
  intros word Hne Hlen Hall Hkey.
  assert (Hgate : is_empty word = false /\ length word <= 50 /\
                  matches_word_pattern word = true).
  { apply (gate_open_iff (f_word fields)). fold word.
    intros [H|[H|(c & Hin & Hc)]]; [congruence | lia |].
    rewrite (Hall c Hin) in Hc. discriminate. }
  destruct Hgate as (He & _ & Hm).
  destruct (@analyze_proposal_checked fields results He Hlen Hm)
    as (_ & Hl & _ & _ & _ & Hrej).
  apply Hrej. right; left. rewrite Hl.
  apply (@lexicon_outcome_duplicate word (strip (f_domain fields)) entry Hkey).
Qed.

End Pipeline.

Lemma duplicate_word_rejected_witness :
  recommendation
    (sample_run (sample_fields (lit "ami") (lit "a friend") (lit "Emotion")
                   (lit "already there")))
  = Recommendation.REJECT.
Proof.
  apply (@duplicate_word_rejected sample_set_iteration format_two_places
           sample_analyzer
           (sample_fields (lit "ami") (lit "a friend") (lit "Emotion")
              (lit "already there"))
           initial_results (sample_entry (lit "friend") (lit "Emotion"))).
  - discriminate.
  - vm_compute. lia.
  - apply forallb_forall. reflexivity.
  - reflexivity.
Defined.

(** ** Phonotactic validator: what is accepted and what is refused *)

Lemma char_at_app_here (pre : pystr) c tl :
  char_at (pre ++ c :: tl) (length pre) = c.
Proof. unfold char_at. now rewrite nth_middle. Qed.

Lemma char_at_app_next (pre : pystr) c d tl :
  char_at (pre ++ c :: d :: tl) (length pre + 1) = d.
Proof.
  change (c :: d :: tl) with ([c] ++ d :: tl). rewrite app_assoc.
  replace (length pre + 1) with (length (pre ++ [c]))
    by (rewrite length_app; reflexivity).
  apply char_at_app_here.
Qed.

Section OpenSyllables.

Variable self0 : ProposalAnalyzer.
Let self := load_phonology self0.

Lemma vowel_facts v :
  In v phonology_vowels ->
  is_vowel self v = true /\ is_consonant self v = false /\
  char_in v (valid_phonemes self) = true /\ lower_char v = v /\
  char_eqb v hyphen = false.
Proof.
  intros H. repeat (destruct H as [<-|H]; [repeat split|]). destruct H.
Qed.

Lemma consonant_facts c :
  In c phonology_consonants ->
  is_consonant self c = true /\ is_vowel self c = false /\
  char_in c (valid_phonemes self) = true /\ lower_char c = c /\
  char_eqb c hyphen = false.
Proof.
  intros H. repeat (destruct H as [<-|H]; [repeat split|]). destruct H.
Qed.

Lemma ltb_app_here (pre : pystr) c tl :
  (length pre <? length (pre ++ c :: tl)) = true.
Proof. apply Nat.ltb_lt. rewrite length_app. simpl. lia. Qed.

Lemma onset_consonant_vowel pre c v tl :
  is_consonant self c = true -> is_consonant self v = false ->
  onset self (pre ++ c :: v :: tl) (length pre) = Some (length pre + 1).
Proof.
  intros Hc Hv. unfold onset.
  rewrite char_at_app_here, char_at_app_next, Hc, Hv, andb_false_r.
  reflexivity.
Qed.

Lemma onset_vowel pre v tl :
  is_consonant self v = false ->
  onset self (pre ++ v :: tl) (length pre) = Some (length pre).
Proof.
  intros Hv. unfold onset.
  rewrite char_at_app_here, Hv, andb_false_r. reflexivity.
Qed.

(** At the start of a syllable the coda loop leaves at once. *)
Lemma coda_loop_at_syllable pre syllables fuel :
  Forall open_syllable syllables ->
  coda_loop self fuel (pre ++ syllables_text syllables) (length pre)
  = length pre.
Proof.
  intros Hall. destruct fuel as [|fuel]; [reflexivity|].
  destruct syllables as [|[[c|] v] rest].
  - simpl. rewrite app_nil_r, Nat.ltb_irrefl. reflexivity.
  - inversion Hall as [|? ? [Hv Hc] Hrest]; subst. simpl in Hv, Hc.
    destruct (consonant_facts Hc) as (Hcc & _).
    destruct (vowel_facts Hv) as (Hvv & _).
    cbn [syllables_text flat_map syllable_text fst snd app coda_loop].
    rewrite ltb_app_here, char_at_app_here, char_at_app_next, Hcc, Hvv.
    cbn [andb].
    rewrite length_app. cbn [length].
    destruct (Nat.eqb_spec (length pre)
                (length pre + S (S (length (flat_map syllable_text rest))) - 1));
      [lia|].
    destruct (Nat.ltb_spec (length pre)
                (length pre + S (S (length (flat_map syllable_text rest))) - 1));
      [reflexivity | lia].
  - inversion Hall as [|? ? [Hv _] Hrest]; subst. simpl in Hv.
    destruct (vowel_facts Hv) as (_ & Hvc & _).
    cbn [syllables_text flat_map syllable_text fst snd app coda_loop].
    rewrite char_at_app_here, Hvc, andb_false_r. reflexivity.
Qed.

Lemma syllable_loop_open syllables :
  Forall open_syllable syllables ->
  forall pre fuel,
    syllable_loop self fuel (pre ++ syllables_text syllables) (length pre)
    = true.
Proof.
  induction syllables as [|[[c|] v] rest IH]; intros Hall pre fuel.
  - destruct fuel; [reflexivity|]. simpl.
    rewrite app_nil_r, Nat.ltb_irrefl. reflexivity.
  - destruct fuel as [|fuel]; [reflexivity|].
    inversion Hall as [|? ? [Hv Hc] Hrest]; subst. simpl in Hv, Hc.
    destruct (consonant_facts Hc) as (Hcc & _).
    destruct (vowel_facts Hv) as (Hvv & Hvc & _).
    specialize (IH Hrest (pre ++ [c; v]) fuel).
    pose proof (coda_loop_at_syllable (pre ++ [c; v])
                  (length (pre ++ c :: v :: syllables_text rest)) Hrest)
      as Hcoda.
    rewrite <- app_assoc in IH, Hcoda. cbn [app] in IH, Hcoda.
    replace (length (pre ++ [c; v])) with (length pre + 1 + 1) in IH, Hcoda
      by (rewrite length_app; simpl; lia).
    cbn [syllable_loop syllables_text flat_map syllable_text fst snd app].
    fold (syllables_text rest).
    rewrite ltb_app_here, (@onset_consonant_vowel pre c v _ Hcc Hvc).
    rewrite char_at_app_next, Hvv.
    destruct (Nat.leb_spec
                (length (pre ++ c :: v :: syllables_text rest))
                (length pre + 1)) as [Hle|_];
      [rewrite length_app in Hle; simpl in Hle; lia|].
    cbn [negb orb]. rewrite Hcoda. exact IH.
  - destruct fuel as [|fuel]; [reflexivity|].
    inversion Hall as [|? ? [Hv _] Hrest]; subst. simpl in Hv.
    destruct (vowel_facts Hv) as (Hvv & Hvc & _).
    specialize (IH Hrest (pre ++ [v]) fuel).
    pose proof (coda_loop_at_syllable (pre ++ [v])
                  (length (pre ++ v :: syllables_text rest)) Hrest)
      as Hcoda.
    rewrite <- app_assoc in IH, Hcoda. cbn [app] in IH, Hcoda.
    replace (length (pre ++ [v])) with (length pre + 1) in IH, Hcoda
      by (rewrite length_app; simpl; lia).
    cbn [syllable_loop syllables_text flat_map syllable_text fst snd app].
    fold (syllables_text rest).
    rewrite ltb_app_here, (@onset_vowel pre v _ Hvc).
    rewrite char_at_app_here, Hvv.
    destruct (Nat.leb_spec
                (length (pre ++ v :: syllables_text rest))
                (length pre)) as [Hle|_];
      [rewrite length_app in Hle; simpl in Hle; lia|].
    cbn [negb orb]. rewrite Hcoda. exact IH.
Qed.

End OpenSyllables.

Section OpenSyllableWords.

Variable set_iteration : list char -> list char.
Variable self0 : ProposalAnalyzer.
Let self := load_phonology self0.

Lemma skip_consonants_one pre c v tl fuel :
  is_consonant self c = true -> is_consonant self v = false ->
  skip_consonants self (S fuel) (pre ++ c :: v :: tl) (length pre)
  = length pre + 1.
Proof.
  intros Hc Hv. cbn [skip_consonants].
  rewrite ltb_app_here, char_at_app_here, Hc. cbn [andb].
  destruct fuel as [|fuel]; [reflexivity|]. cbn [skip_consonants].
  rewrite char_at_app_next, Hv, andb_false_r. reflexivity.
Qed.

Lemma cluster_scan_open part_idx syllables :
  Forall open_syllable syllables ->
  forall pre fuel,
    cluster_scan self fuel part_idx (pre ++ syllables_text syllables)
      (length pre) = None.
Proof.
  induction syllables as [|[[c|] v] rest IH]; intros Hall pre fuel.
  - destruct fuel; [reflexivity|]. simpl.
    rewrite app_nil_r, Nat.ltb_irrefl. reflexivity.
  - destruct fuel as [|fuel]; [reflexivity|].
    inversion Hall as [|? ? [Hv Hc] Hrest]; subst. simpl in Hv, Hc.
    destruct (@consonant_facts self0 c Hc) as (Hcc & _).
    destruct (@vowel_facts self0 v Hv) as (_ & Hvc & _).
    fold self in Hcc, Hvc.
    specialize (IH Hrest (pre ++ [c; v])).
    rewrite <- app_assoc in IH. cbn [app] in IH.
    replace (length (pre ++ [c; v])) with (length pre + 1 + 1) in IH
      by (rewrite length_app; simpl; lia).
    cbn [cluster_scan syllables_text flat_map syllable_text fst snd app].
    fold (syllables_text rest).
    rewrite ltb_app_here, char_at_app_here, Hcc.
    assert (Hskip : skip_consonants self
                      (length (pre ++ c :: v :: syllables_text rest))
                      (pre ++ c :: v :: syllables_text rest) (length pre)
                    = length pre + 1).
    { replace (length (pre ++ c :: v :: syllables_text rest))
        with (S (length pre + 1 + length (syllables_text rest)))
        by (rewrite length_app; simpl; lia).
      apply (@skip_consonants_one pre c v _ _ Hcc Hvc). }
    rewrite Hskip.
    replace (length pre + 1 - length pre) with 1 by lia.
    cbn [Nat.ltb Nat.leb].
    destruct fuel as [|fuel]; [reflexivity|]. cbn [cluster_scan].
    rewrite char_at_app_next, Hvc.
    destruct (Nat.ltb_spec (length pre + 1)
                (length (pre ++ c :: v :: syllables_text rest)));
      [apply IH | reflexivity].
  - destruct fuel as [|fuel]; [reflexivity|].
    inversion Hall as [|? ? [Hv _] Hrest]; subst. simpl in Hv.
    destruct (@vowel_facts self0 v Hv) as (_ & Hvc & _). fold self in Hvc.
    specialize (IH Hrest (pre ++ [v])).
    rewrite <- app_assoc in IH. cbn [app] in IH.
    replace (length (pre ++ [v])) with (length pre + 1) in IH
      by (rewrite length_app; simpl; lia).
    cbn [cluster_scan syllables_text flat_map syllable_text fst snd app].
    fold (syllables_text rest).
    rewrite ltb_app_here, char_at_app_here, Hvc. apply IH.
Qed.

(** Every character of such a word is a phoneme of the loaded tables, is
    its own lower case, and is not a hyphen. *)
Lemma open_text_chars syllables c :
  Forall open_syllable syllables -> In c (syllables_text syllables) ->
  char_in c (valid_phonemes self) = true /\ lower_char c = c /\
  char_eqb c hyphen = false.
Proof.
  intros Hall Hin. unfold syllables_text in Hin.
  apply in_flat_map in Hin as ([o v] & Hs & Hc).
  rewrite Forall_forall in Hall. destruct (Hall _ Hs) as [Hv Ho].
  simpl in Hv, Ho. unfold syllable_text in Hc. simpl in Hc.
  destruct o as [c0|].
  - destruct Hc as [<-|[<-|[]]].
    + destruct (@consonant_facts self0 c0 Ho) as (_ & _ & H1 & H2 & H3).
      auto.
    + destruct (@vowel_facts self0 v Hv) as (_ & _ & H1 & H2 & H3). auto.
  - destruct Hc as [<-|[]].
    destruct (@vowel_facts self0 v Hv) as (_ & _ & H1 & H2 & H3). auto.
Qed.

Lemma split_hyphen_aux_plain (w : pystr) :
  (forall c, In c w -> char_eqb c hyphen = false) ->
  split_hyphen_aux w = (w, []).
Proof.
  induction w as [|c w IH]; intros H; [reflexivity|]. simpl.
  rewrite IH by (intros d Hd; apply H; now right).
  rewrite (H c (or_introl eq_refl)). reflexivity.
Qed.

Lemma filter_keeps_all {A} (f : A -> bool) (l : list A) :
  (forall x, In x l -> f x = true) -> filter f l = l.
Proof.
  induction l as [|x l IH]; intros H; [reflexivity|]. simpl.
  rewrite (H x (or_introl eq_refl)), IH; [reflexivity|].
  intros y Hy. apply H. now right.
Qed.

Lemma filter_drops_all {A} (f : A -> bool) (l : list A) :
  (forall x, In x l -> f x = false) -> filter f l = [].
Proof.
  induction l as [|x l IH]; intros H; [reflexivity|]. simpl.
  rewrite (H x (or_introl eq_refl)). apply IH.
  intros y Hy. apply H. now right.
Qed.

Lemma map_fixes_all {A} (f : A -> A) (l : list A) :
  (forall x, In x l -> f x = x) -> map f l = l.
Proof.
  induction l as [|x l IH]; intros H; [reflexivity|]. simpl.
  rewrite (H x (or_introl eq_refl)), IH; [reflexivity|].
  intros y Hy. apply H. now right.
Qed.

(** X7.  With the tables of [load_phonology], every non-empty word spelled
    by syllables of the shape V or CV (consonants and vowels of the tables)
    passes the phonotactic check, with the three PASS messages. *)
Theorem open_syllable_word_passes syllables :
  syllables <> [] -> Forall open_syllable syllables ->
  phonotactics_outcome set_iteration self (syllables_text syllables) =
  {| status := Status.PASS;
     messages :=
       [ mark_pass ++ lit "All phonemes are valid Fidakune sounds";
         mark_pass ++ lit "Syllable structure follows Fidakune phonotactics";
         mark_pass ++ lit "Consonant clusters are valid" ] |}.
Proof.
  intros Hne Hall. set (word := syllables_text syllables).
  assert (Hchars : forall c, In c word ->
            char_in c (valid_phonemes self) = true /\ lower_char c = c /\
            char_eqb c hyphen = false)
    by (intros c Hc; now apply (@open_text_chars syllables c Hall)).
  assert (Hnohyphen : remove_hyphens word = word).
  { apply filter_keeps_all. intros c Hc.
    destruct (Hchars c Hc) as (_ & _ & ->). reflexivity. }
  assert (Hlower : lower word = word).
  { apply map_fixes_all. intros c Hc. now destruct (Hchars c Hc) as (_ & ? & _). }
  assert (Hvalid : invalid_phonemes_of self word = []).
  { unfold invalid_phonemes_of. rewrite Hnohyphen, Hlower.
    apply filter_drops_all. intros c Hc.
    destruct (Hchars c Hc) as (-> & _). reflexivity. }
  assert (Hhyphen : has_hyphen word = false).
  { unfold has_hyphen, char_in.
    destruct (existsb (char_eqb hyphen) word) eqn:E; [|reflexivity].
    apply existsb_exists in E as (c & Hc & Heq).
    apply N.eqb_eq in Heq. subst c.
    destruct (Hchars _ Hc) as (_ & _ & H). discriminate. }
  assert (Hsplit : split_hyphen word = [word]).
  { unfold split_hyphen. rewrite split_hyphen_aux_plain; [reflexivity|].
    intros c Hc. now destruct (Hchars c Hc) as (_ & _ & ?). }
  assert (Hnonempty : is_empty word = false).
  { subst word. destruct syllables as [|[[c|] v] rest];
      [congruence | reflexivity | reflexivity]. }
  assert (Hsyll : _validate_syllable_structure self word = (true, [])).
  { unfold _validate_syllable_structure. rewrite Hsplit.
    cbn [syllable_parts_loop]. unfold _is_valid_syllable_sequence.
    rewrite !Hlower, Hnonempty.
    pose proof (@syllable_loop_open self0 syllables Hall [] (length word))
      as Hloop.
    change (syllable_loop self (length word) word 0 = true) in Hloop.
    rewrite Hloop. reflexivity. }
  assert (Hclus : _validate_consonant_clusters self word = (true, [], false)).
  { unfold _validate_consonant_clusters. rewrite Hsplit.
    cbn [enumerate enumerate_from length seq combine cluster_parts_loop].
    rewrite Hlower.
    pose proof (@cluster_scan_open 0 syllables Hall [] (length word))
      as Hscan.
    change (cluster_scan self (length word) 0 word 0 = None) in Hscan.
    rewrite Hscan. reflexivity. }
  unfold phonotactics_outcome.
  rewrite Hvalid, Hhyphen, Hsyll, Hclus. reflexivity.
Qed.

End OpenSyllableWords.

Lemma open_syllable_word_passes_witness :
  status (phonotactics_outcome sample_set_iteration sample_analyzer
            (lit "sola")) = Status.PASS.
Proof.
  change sample_analyzer with (load_phonology sample_analyzer).
  change (lit "sola")
    with (syllables_text [(Some 115%N, 111%N); (Some 108%N, 97%N)]).
  rewrite open_syllable_word_passes; [reflexivity | discriminate |].
  repeat constructor; simpl; tauto.
Defined.

Section Refusals.

Variable set_iteration : list char -> list char.
Variable self : ProposalAnalyzer.

Lemma split_hyphen_cons c w :
  char_eqb c hyphen = false ->
  split_hyphen (c :: w) =
  (c :: fst (split_hyphen_aux w)) :: snd (split_hyphen_aux w).
Proof.
  intros Hc. unfold split_hyphen. simpl.
  destruct (split_hyphen_aux w) as [p ps]. rewrite Hc. reflexivity.
Qed.

Lemma split_hyphen_hyphen w :
  split_hyphen (hyphen :: w) = [] :: split_hyphen w.
Proof.
  unfold split_hyphen. simpl. destruct (split_hyphen_aux w) as [p ps].
  reflexivity.
Qed.

Lemma char_neq_eqb (c d : char) : c <> d -> char_eqb c d = false.
Proof. intros H. now apply N.eqb_neq. Qed.

(** A first part that opens with two consonants is refused by the cluster
    scan, whichever of its three tests fires. *)
Lemma cluster_scan_initial part fuel c1 c2 tl :
  part = c1 :: c2 :: tl ->
  is_consonant self c1 = true -> is_consonant self c2 = true ->
  exists msg,
    cluster_scan self (S fuel) 0 part 0 = Some (false, msg, false).
Proof.
  intros -> H1 H2. cbn [cluster_scan].
  change (0 <? length (c1 :: c2 :: tl)) with true. cbv iota.
  change (char_at (c1 :: c2 :: tl) 0) with c1. rewrite H1.
  set (i := skip_consonants self (length (c1 :: c2 :: tl))
              (c1 :: c2 :: tl) 0).
  assert (Hskip : 2 <= i).
  { subst i. cbn [length skip_consonants].
    change (0 <? S (S (length tl))) with true.
    change (char_at (c1 :: c2 :: tl) 0) with c1. rewrite H1.
    cbn [andb Nat.add].
    change (1 <? S (S (length tl))) with true.
    change (char_at (c1 :: c2 :: tl) 1) with c2. rewrite H2.
    cbn [andb]. apply skip_consonants_ge. }
  rewrite Nat.sub_0_r.
  destruct (Nat.ltb_spec 1 i) as [_|Hi]; [|lia].
  cbn [Nat.eqb andb].
  destruct (2 <? length (slice (c1 :: c2 :: tl) 0 i)); [eauto|].
  destruct (is_permitted self (slice (c1 :: c2 :: tl) 0 i)); cbn [negb];
    eauto.
Qed.

(** X8.  A word whose first two characters are consonants (in lower case)
    always fails the phonotactic check: the cluster is too long, or not
    permitted, or refused for standing at the beginning of the word. *)
Theorem initial_cluster_fails c1 c2 rest :
  c1 <> hyphen -> c2 <> hyphen ->
  is_consonant self (lower_char c1) = true ->
  is_consonant self (lower_char c2) = true ->
  fst (fst (_validate_consonant_clusters self (c1 :: c2 :: rest))) = false /\
  status (phonotactics_outcome set_iteration self (c1 :: c2 :: rest))
  = Status.FAIL.
Proof.
  intros Hh1 Hh2 H1 H2.
  assert (Hclus : exists msg,
             _validate_consonant_clusters self (c1 :: c2 :: rest)
             = (false, msg, false)).
  { unfold _validate_consonant_clusters.
    rewrite (@split_hyphen_cons c1 (c2 :: rest) (char_neq_eqb Hh1)).
    unfold split_hyphen_aux at 1. fold split_hyphen_aux.
    destruct (split_hyphen_aux rest) as [p ps] eqn:Hrest.
    rewrite (char_neq_eqb Hh2). cbn [fst snd].
    unfold enumerate, enumerate_from.
    cbn [length seq combine cluster_parts_loop lower map].
    destruct (@cluster_scan_initial
                (lower_char c1 :: lower_char c2 :: map lower_char p)
                (S (length (map lower_char p)))
                (lower_char c1) (lower_char c2) (map lower_char p)
                eq_refl H1 H2) as [msg Hmsg].
    rewrite Hmsg. eauto. }
  destruct Hclus as [msg Hclus]. split; [now rewrite Hclus|].
  unfold phonotactics_outcome. rewrite Hclus.
  repeat match goal with
         | |- context [if negb (is_empty ?l) then _ else _] =>
             destruct (negb (is_empty l))
         | |- context [if has_hyphen ?w then _ else _] =>
             destruct (has_hyphen w)
         | |- context [if negb (fst ?r) then _ else _] =>
             destruct (negb (fst r))
         end; reflexivity.
Qed.

End Refusals.

Lemma initial_cluster_fails_witness :
  fst (fst (_validate_consonant_clusters sample_analyzer (lit "stami")))
  = false /\
  status (phonotactics_outcome sample_set_iteration sample_analyzer
            (lit "stami")) = Status.FAIL.
Proof.
  apply (@initial_cluster_fails sample_set_iteration sample_analyzer
           115%N 116%N (lit "ami"));
    [discriminate | discriminate | reflexivity | reflexivity].
Defined.

Section SyllableFacts.

Variable self : ProposalAnalyzer.

Lemma lower_char_idem c : lower_char (lower_char c) = lower_char c.
Proof.
  unfold lower_char.
  destruct ((65 <=? c) && (c <=? 90))%N eqn:E; [|now rewrite E].
  apply andb_true_iff in E as [E1 E2].
  apply N.leb_le in E1, E2.
  destruct (N.leb_spec (c + 32) 90); [lia|].
  now rewrite andb_false_r.
Qed.

Lemma lower_idem s : lower (lower s) = lower s.
Proof.
  unfold lower. rewrite map_map. apply map_ext. apply lower_char_idem.
Qed.

Lemma is_empty_lower s : is_empty (lower s) = is_empty s.
Proof. destruct s; reflexivity. Qed.

(** The sequence test does not depend on the case of its argument. *)
Lemma valid_sequence_lower part :
  _is_valid_syllable_sequence self (lower part) =
  _is_valid_syllable_sequence self part.
Proof.
  unfold _is_valid_syllable_sequence.
  now rewrite is_empty_lower, lower_idem.
Qed.

Lemma valid_sequence_nonempty part :
  _is_valid_syllable_sequence self part = true -> is_empty part = false.
Proof.
  unfold _is_valid_syllable_sequence. destruct (is_empty part);
    [discriminate | reflexivity].
Qed.

Lemma hyphen_parts_loop_ok parts :
  fst (hyphen_parts_loop self parts) =
  forallb (_is_valid_syllable_sequence self) parts.
Proof.
  induction parts as [|part parts IH]; [reflexivity|]. simpl.
  destruct (is_empty part) eqn:He.
  - unfold _is_valid_syllable_sequence. now rewrite He.
  - destruct (_is_valid_syllable_sequence self part); [exact IH|reflexivity].
Qed.

Lemma syllable_parts_loop_ok parts :
  fst (syllable_parts_loop self parts) =
  forallb (_is_valid_syllable_sequence self) parts.
Proof.
  induction parts as [|part parts IH]; [reflexivity|]. simpl.
  rewrite valid_sequence_lower.
  destruct (_is_valid_syllable_sequence self part); [exact IH|reflexivity].
Qed.

Lemma empty_part_invalid parts :
  In [] parts -> forallb (_is_valid_syllable_sequence self) parts = false.
Proof.
  induction parts as [|part parts IH]; [intros []|]. intros [H|H]; simpl.
  - subst part. reflexivity.
  - rewrite (IH H). apply andb_false_r.
Qed.

(** A doubled hyphen leaves an empty part after the first one. *)
Lemma double_hyphen_empty_part w :
  contains (lit "--") w = true -> In [] (snd (split_hyphen_aux w)).
Proof.
  induction w as [|c w IH]; [discriminate|].
  cbn [contains]. intros H. apply orb_true_iff in H as [H|H].
  - cbn [lit map String.list_ascii_of_string starts_with] in H.
    destruct w as [|d w]; [rewrite andb_false_r in H; discriminate|].
    apply andb_true_iff in H as [Hc H]. apply andb_true_iff in H as [Hd _].
    apply N.eqb_eq in Hc, Hd. subst c d.
    change (In [] (snd (split_hyphen_aux (hyphen :: hyphen :: w)))).
    simpl. destruct (split_hyphen_aux w) as [p ps]. simpl. auto.
  - specialize (IH H). simpl. destruct (split_hyphen_aux w) as [p ps].
    simpl in IH. destruct (char_eqb c hyphen); simpl; auto.
Qed.

Lemma split_hyphen_aux_snoc w :
  split_hyphen_aux (w ++ [hyphen]) =
  (fst (split_hyphen_aux w), snd (split_hyphen_aux w) ++ [[]]).
Proof.
  induction w as [|c w IH]; [reflexivity|]. simpl. rewrite IH.
  destruct (split_hyphen_aux w) as [p ps]. simpl.
  destruct (char_eqb c hyphen); reflexivity.
Qed.

Lemma trailing_hyphen_empty_part w :
  ends_with (lit "-") w = true -> In [] (split_hyphen w).
Proof.
  unfold ends_with. cbn [lit map String.list_ascii_of_string rev app].
  destruct (rev w) as [|c r] eqn:E; [discriminate|].
  cbn [starts_with]. intros H. apply andb_true_iff in H as [Hc _].
  apply N.eqb_eq in Hc.
  assert (Hw : w = rev r ++ [hyphen]).
  { rewrite <- (rev_involutive w), E. simpl. now subst c. }
  rewrite Hw. unfold split_hyphen. rewrite split_hyphen_aux_snoc.
  right. apply in_or_app. right. now left.
Qed.

Lemma leading_hyphen_empty_part w :
  starts_with (lit "-") w = true -> In [] (split_hyphen w).
Proof.
  cbn [lit map String.list_ascii_of_string].
  destruct w as [|c w]; [discriminate|]. cbn [starts_with].
  intros H. apply andb_true_iff in H as [Hc _]. apply N.eqb_eq in Hc.
  subst c. change (In [] (split_hyphen (hyphen :: w))).
  unfold split_hyphen. simpl. destruct (split_hyphen_aux w). now left.
Qed.

Lemma hyphen_two_parts w :
  has_hyphen w = true -> 2 <= length (split_hyphen w).
Proof.
  unfold has_hyphen, char_in, split_hyphen.
  induction w as [|c w IH]; [discriminate|].
  cbn [existsb split_hyphen_aux].
  destruct (split_hyphen_aux w) as [p ps]. unfold char_eqb.
  destruct (N.eqb_spec c hyphen) as [->|Hne].
  - intros _. cbn [length]. lia.
  - destruct (N.eqb_spec hyphen c) as [E|_]; [congruence|].
    cbn [orb length]. intros H. apply IH in H. cbn [length] in H. lia.
Qed.

(** X9.  On a word that contains a hyphen, the hyphen-usage test and the
    syllable-structure test give the same verdict: the first never fails
    alone. *)
Theorem hyphen_test_agrees_with_syllable_test word :
  has_hyphen word = true ->
  fst (_validate_hyphen_usage self word) =
  fst (_validate_syllable_structure self word).
Proof.
  intros Hh. unfold _validate_hyphen_usage, _validate_syllable_structure.
  rewrite syllable_parts_loop_ok.
  destruct (contains (lit "--") word) eqn:Hd.
  { symmetry. apply empty_part_invalid. unfold split_hyphen.
    pose proof (double_hyphen_empty_part word Hd) as H.
    destruct (split_hyphen_aux word). now right. }
  destruct (starts_with (lit "-") word) eqn:Hs.
  { symmetry. now apply empty_part_invalid, leading_hyphen_empty_part. }
  destruct (ends_with (lit "-") word) eqn:He.
  { symmetry. now apply empty_part_invalid, trailing_hyphen_empty_part. }
  cbn [orb].
  destruct (Nat.ltb_spec (length (split_hyphen word)) 2) as [Hlt|_].
  { apply hyphen_two_parts in Hh. lia. }
  apply hyphen_parts_loop_ok.
Qed.

End SyllableFacts.

Lemma hyphen_test_agrees_with_syllable_test_witness :
  fst (_validate_hyphen_usage sample_analyzer (lit "ami-")) =
  fst (_validate_syllable_structure sample_analyzer (lit "ami-")).
Proof.
  apply (@hyphen_test_agrees_with_syllable_test sample_analyzer (lit "ami-")).
  reflexivity.
Defined.

Section AcceptedSequences.

Variable self : ProposalAnalyzer.

Lemma onset_consonants chars i i1 :
  onset self chars i = Some i1 ->
  i <= i1 /\
  forall k, i <= k < i1 -> is_consonant self (char_at chars k) = true.
Proof.
  unfold onset.
  destruct ((i <? length chars - 1) && is_consonant self (char_at chars i)
            && is_consonant self (char_at chars (i + 1))) eqn:E.
  - apply andb_true_iff in E as [E E2]. apply andb_true_iff in E as [_ E1].
    destruct (is_permitted self _); [|discriminate].
    intros H. injection H as <-. split; [lia|]. intros k Hk.
    assert (Hcase : k = i \/ k = i + 1) by lia.
    destruct Hcase as [-> | ->]; assumption.
  - destruct (is_consonant self (char_at chars i)) eqn:E1;
      intros H; injection H as <-; (split; [lia|]); intros k Hk.
    + replace k with i by lia. exact E1.
    + lia.
Qed.

Lemma coda_loop_consonants chars fuel :
  forall i k,
    i <= k < coda_loop self fuel chars i ->
    is_consonant self (char_at chars k) = true.
Proof.
  induction fuel as [|fuel IH]; intros i k; simpl; [lia|].
  destruct ((i <? length chars) && is_consonant self (char_at chars i))
    eqn:E; [|lia].
  apply andb_true_iff in E as [_ Ec].
  repeat match goal with
         | |- context [if ?b then _ else _] => destruct b
         end; intros Hk;
    try (replace k with i by lia; exact Ec); try lia.
  destruct (Nat.eq_dec k i) as [->|Hne]; [exact Ec|].
  apply (IH (i + 1)). lia.
Qed.

Lemma syllable_loop_chars chars fuel :
  forall i,
    length chars - i <= fuel ->
    syllable_loop self fuel chars i = true ->
    forall k, i <= k < length chars ->
      is_consonant self (char_at chars k) || is_vowel self (char_at chars k)
      = true.
Proof.
  induction fuel as [|fuel IH]; intros i Hfuel Hloop k Hk; [lia|].
  simpl in Hloop.
  destruct (Nat.ltb_spec i (length chars)) as [Hi|]; [|lia].
  destruct (onset self chars i) as [i1|] eqn:Ho; [|discriminate].
  destruct (onset_consonants chars i Ho) as [Hge Hons].
  destruct ((length chars <=? i1) || negb (is_vowel self (char_at chars i1)))
    eqn:Ev; [discriminate|].
  apply orb_false_iff in Ev as [Hlt Hv].
  apply Nat.leb_gt in Hlt. apply negb_false_iff in Hv.
  pose proof (coda_loop_ge self chars (length chars) (i1 + 1)) as Hcoda.
  destruct (Nat.lt_ge_cases k i1) as [Hk1|Hk1].
  { rewrite (Hons k); [reflexivity | lia]. }
  destruct (Nat.eq_dec k i1) as [->|Hne].
  { rewrite Hv. apply orb_true_r. }
  destruct (Nat.lt_ge_cases k
              (coda_loop self (length chars) chars (i1 + 1))) as [Hk2|Hk2].
  { rewrite (@coda_loop_consonants chars (length chars) (i1 + 1) k);
      [reflexivity | lia]. }
  apply (IH (coda_loop self (length chars) chars (i1 + 1)));
    [lia | exact Hloop | lia].
Qed.

Lemma syllable_loop_has_vowel chars fuel i :
  i < length chars -> syllable_loop self (S fuel) chars i = true ->
  exists k, k < length chars /\ is_vowel self (char_at chars k) = true.
Proof.
  intros Hi Hloop. simpl in Hloop.
  destruct (Nat.ltb_spec i (length chars)); [|lia].
  destruct (onset self chars i) as [i1|]; [|discriminate].
  destruct ((length chars <=? i1) || negb (is_vowel self (char_at chars i1)))
    eqn:Ev; [discriminate|].
  apply orb_false_iff in Ev as [Hlt Hv].
  apply Nat.leb_gt in Hlt. apply negb_false_iff in Hv. eauto.
Qed.

(** X10.  A part the syllable automaton accepts is not empty, consists
    (in lower case) of consonants and vowels only, and has a vowel. *)
Theorem valid_sequence_is_phonemic part :
  _is_valid_syllable_sequence self part = true ->
  part <> [] /\
  (forall c, In c (lower part) ->
     is_consonant self c || is_vowel self c = true) /\
  exists v, In v (lower part) /\ is_vowel self v = true.
Proof.
  unfold _is_valid_syllable_sequence.
  destruct (is_empty part) eqn:He; [discriminate|]. intros Hloop.
  split; [intros ->; discriminate|]. split.
  - intros c Hc. destruct (In_nth _ _ 0%N Hc) as (k & Hk & <-).
    apply (@syllable_loop_chars (lower part) (length (lower part)) 0);
      [lia | exact Hloop | split; [lia | exact Hk]].
  - assert (Hlen : 0 < length (lower part))
      by (destruct part; [discriminate | simpl; lia]).
    destruct (length (lower part)) as [|n] eqn:En; [lia|].
    rewrite <- En in Hloop at 1.
    destruct (@syllable_loop_has_vowel (lower part) n 0) as (k & Hk & Hv).
    + lia.
    + rewrite En in Hloop. exact Hloop.
    + exists (char_at (lower part) k). split; [|exact Hv].
      apply nth_In. exact Hk.
Qed.

End AcceptedSequences.

Lemma valid_sequence_is_phonemic_witness :
  lit "kora" <> [] /\
  (forall c, In c (lower (lit "kora")) ->
     is_consonant sample_analyzer c || is_vowel sample_analyzer c = true) /\
  exists v, In v (lower (lit "kora")) /\ is_vowel sample_analyzer v = true.
Proof.
  apply (@valid_sequence_is_phonemic sample_analyzer (lit "kora")).
  reflexivity.
Defined.

(** ** Homophone detector: the scan and its verdict *)

Section HomophoneFacts.

Variable format_2f : Q -> pystr.
Variable self : ProposalAnalyzer.

Lemma str_eqb_eq (a b : pystr) : str_eqb a b = true <-> a = b.
Proof.
  unfold str_eqb. destruct (list_eq_dec N.eq_dec a b); split;
    congruence.
Qed.

(** The match recorded for an existing word. *)
Lemma similar_scan_In word pron items sw :
  In sw (similar_scan word pron items) <->
  exists existing entry,
    In (existing, entry) items /\ existing <> word /\
    (6 # 10 < _calculate_pronunciation_similarity pron
                (_generate_pronunciation existing))%Q /\
    sw = {| sw_word := existing;
            sw_definition := get_or_unknown (entry_definition entry);
            sw_pronunciation := _generate_pronunciation existing;
            sw_similarity :=
              _calculate_pronunciation_similarity pron
                (_generate_pronunciation existing) |}.
Proof.
  induction items as [|[existing entry] items IH]; simpl.
  - split; [intros [] | intros (? & ? & [] & _)].
  - destruct (str_eqb existing word) eqn:Eself.
    + apply str_eqb_eq in Eself. rewrite IH. split.
      * intros (e & en & Hin & Hrest). exists e, en. auto.
      * intros (e & en & [Heq|Hin] & Hne & Hrest).
        -- injection Heq as <- <-. congruence.
        -- exists e, en. auto.
    + assert (Hne : existing <> word).
      { intros E. apply str_eqb_eq in E. congruence. }
      destruct (Qlt_le_dec (6 # 10)
                  (_calculate_pronunciation_similarity pron
                     (_generate_pronunciation existing))) as [Hgt|Hle].
      * simpl. rewrite IH. split.
        -- intros [<-|(e & en & Hin & Hrest)].
           ++ exists existing, entry. auto.
           ++ exists e, en. auto.
        -- intros (e & en & [Heq|Hin] & Hne' & Hgt' & ->).
           ++ injection Heq as <- <-. now left.
           ++ right. exists e, en. auto.
      * rewrite IH. split.
        -- intros (e & en & Hin & Hrest). exists e, en. auto.
        -- intros (e & en & [Heq|Hin] & Hne' & Hgt' & Hsw).
           ++ injection Heq as <- <-. exfalso.
              apply (Qlt_irrefl (6 # 10)).
              eapply Qlt_le_trans; eassumption.
           ++ exists e, en. auto.
Qed.

Lemma insert_by_similarity_In x l y :
  In y (insert_by_similarity x l) <-> y = x \/ In y l.
Proof.
  induction l as [|z l IH]; simpl; [intuition congruence|].
  destruct (Qlt_le_dec (sw_similarity x) (sw_similarity z)); simpl;
    [rewrite IH|]; intuition congruence.
Qed.

Lemma sort_by_similarity_In l y : In y (sort_by_similarity l) <-> In y l.
Proof.
  induction l as [|x l IH]; simpl; [reflexivity|].
  rewrite insert_by_similarity_In, IH. intuition congruence.
Qed.

Lemma insert_by_similarity_sorted x l :
  StronglySorted (fun a b => (sw_similarity b <= sw_similarity a)%Q) l ->
  StronglySorted (fun a b => (sw_similarity b <= sw_similarity a)%Q)
    (insert_by_similarity x l).
Proof.
  induction 1 as [|z l Hs IH Hz]; simpl.
  - constructor; constructor.
  - destruct (Qlt_le_dec (sw_similarity x) (sw_similarity z)) as [Hlt|Hle].
    + constructor; [exact IH|]. apply Forall_forall. intros y Hy.
      apply insert_by_similarity_In in Hy as [->|Hy].
      * now apply Qlt_le_weak.
      * rewrite Forall_forall in Hz. now apply Hz.
    + constructor; [now constructor|]. constructor; [exact Hle|].
      rewrite Forall_forall in *. intros y Hy.
      eapply Qle_trans; [apply (Hz y Hy) | exact Hle].
Qed.

Lemma sort_by_similarity_sorted l :
  StronglySorted (fun a b => (sw_similarity b <= sw_similarity a)%Q)
    (sort_by_similarity l).
Proof.
  induction l as [|x l IH]; simpl; [constructor|].
  now apply insert_by_similarity_sorted.
Qed.

Lemma insert_by_similarity_perm x l :
  Permutation (x :: l) (insert_by_similarity x l).
Proof.
  induction l as [|z l IH]; simpl; [reflexivity|].
  destruct (Qlt_le_dec (sw_similarity x) (sw_similarity z));
    [|reflexivity].
  rewrite perm_swap. now constructor.
Qed.

(** X11.  The list of similar words is the matches of the scan rearranged
    by non-increasing similarity: it holds exactly one record per lexicon
    item whose word differs from the proposed one and whose pronunciation
    scores above 0.6, and never the proposed word itself. *)
Theorem find_similar_sorted_matches word pron :
  let found := _find_similar_pronunciations self word pron in
  Permutation (similar_scan word pron (lexicon self)) found /\
  StronglySorted (fun a b => (sw_similarity b <= sw_similarity a)%Q) found /\
  forall sw,
    In sw found <->
    exists existing entry,
      In (existing, entry) (lexicon self) /\ existing <> word /\
      (6 # 10 < _calculate_pronunciation_similarity pron
                  (_generate_pronunciation existing))%Q /\
      sw = {| sw_word := existing;
              sw_definition := get_or_unknown (entry_definition entry);
              sw_pronunciation := _generate_pronunciation existing;
              sw_similarity :=
                _calculate_pronunciation_similarity pron
                  (_generate_pronunciation existing) |}.
Proof.
  unfold _find_similar_pronunciations. split; [|split].
  - induction (similar_scan word pron (lexicon self)) as [|x l IH];
      simpl; [constructor|].
    rewrite <- insert_by_similarity_perm. now constructor.
  - apply sort_by_similarity_sorted.
  - intros sw. rewrite sort_by_similarity_In. apply similar_scan_In.
Qed.

(** The verdict is WARNING as soon as the list is not empty. *)
Lemma homophones_status_found word :
  status (homophones_outcome format_2f self word) = Status.WARNING <->
  _find_similar_pronunciations self word (_generate_pronunciation word) <> [].
Proof.
  unfold homophones_outcome.
  destruct (_find_similar_pronunciations self word
              (_generate_pronunciation word)) as [|sw others].
  - simpl. split; [discriminate | congruence].
  - match goal with |- context [if ?c then _ else _] => destruct c end;
      simpl; split; congruence.
Qed.

Lemma homophones_warning_matches word :
  status (homophones_outcome format_2f self word) = Status.WARNING <->
  exists existing entry,
    In (existing, entry) (lexicon self) /\ existing <> word /\
    (6 # 10 < _calculate_pronunciation_similarity
                (_generate_pronunciation word)
                (_generate_pronunciation existing))%Q.
Proof.
  rewrite homophones_status_found. unfold _find_similar_pronunciations.
  split.
  - intros Hne.
    destruct (sort_by_similarity
                (similar_scan word (_generate_pronunciation word)
                   (lexicon self))) as [|sw l] eqn:E; [congruence|].
    assert (Hin : In sw (sort_by_similarity
                (similar_scan word (_generate_pronunciation word)
                   (lexicon self)))) by (rewrite E; now left).
    apply sort_by_similarity_In, similar_scan_In in Hin
      as (existing & entry & H1 & H2 & H3 & _).
    eauto.
  - intros (existing & entry & H1 & H2 & H3) E.
    assert (Hin : In {| sw_word := existing;
            sw_definition := get_or_unknown (entry_definition entry);
            sw_pronunciation := _generate_pronunciation existing;
            sw_similarity :=
              _calculate_pronunciation_similarity
                (_generate_pronunciation word)
                (_generate_pronunciation existing) |}
          (sort_by_similarity
             (similar_scan word (_generate_pronunciation word)
                (lexicon self)))).
    { apply sort_by_similarity_In, similar_scan_In.
      exists existing, entry. auto. }
    rewrite E in Hin. destruct Hin.
Qed.

(** X12.  The homophone check ends in WARNING exactly when some other word
    of the lexicon has a pronunciation scoring above 0.6 against the
    proposed word's; otherwise it ends in PASS.  It reports at most three
    words under one heading. *)
Theorem homophones_verdict word :
  let outcome := homophones_outcome format_2f self word in
  (status outcome = Status.WARNING <->
   exists existing entry,
     In (existing, entry) (lexicon self) /\ existing <> word /\
     (6 # 10 < _calculate_pronunciation_similarity
                 (_generate_pronunciation word)
                 (_generate_pronunciation existing))%Q) /\
  (status outcome = Status.PASS \/ status outcome = Status.WARNING) /\
  1 <= length (messages outcome) <= 4.
Proof.
  intros outcome. subst outcome.
  split; [apply homophones_warning_matches|].
  split; [apply homophones_outcome_status|].
  unfold homophones_outcome.
  destruct (_find_similar_pronunciations self word
              (_generate_pronunciation word)) as [|sw others];
    [simpl; lia|].
  match goal with |- context [if ?c then _ else _] => destruct c end;
    cbn [messages length]; [lia|].
  rewrite length_map.
  pose proof (firstn_le_length 3 (sw :: others)).
  pose proof (length_firstn 3 (sw :: others)). lia.
Qed.

(** The score of a non-empty pronunciation against itself. *)
Lemma similarity_same (a : pystr) :
  a <> [] -> _calculate_pronunciation_similarity a a = 1%Q.
Proof.
  intros Ha. unfold _calculate_pronunciation_similarity.
  destruct a as [|c a]; [congruence|]. cbn [is_empty orb].
  rewrite levenshtein_distance_spec, edit_distance_refl.
  rewrite Nat.max_id. cbn [length Nat.eqb].
  unfold abs_diff. rewrite Nat.max_id, Nat.min_id, Nat.sub_diag.
  cbn [Nat.leb]. unfold py_min.
  match goal with |- context [Qlt_le_dec ?x ?y] =>
    destruct (Qlt_le_dec x y) as [_|H] end; [reflexivity|].
  exfalso. unfold Q_of_nat in H. change (inject_Z (Z.of_nat 0)) with 0%Q in H.
  assert (E : (0 / inject_Z (Z.of_nat (S (length a))) == 0)%Q)
    by (unfold Qdiv; apply Qmult_0_l).
  rewrite E in H. lra.
Qed.

(** X13.  A proposed word that is pronounced like another word of the
    lexicon (the two differ at most by hyphens and letter case, say) is
    flagged with WARNING. *)
Theorem same_pronunciation_flagged word existing entry :
  In (existing, entry) (lexicon self) -> existing <> word ->
  _generate_pronunciation existing = _generate_pronunciation word ->
  _generate_pronunciation word <> [] ->
  status (homophones_outcome format_2f self word) = Status.WARNING.
Proof.
  intros Hin Hne Hsame Hnonempty. apply homophones_warning_matches.
  exists existing, entry. split; [exact Hin|]. split; [exact Hne|].
  rewrite Hsame, (@similarity_same _ Hnonempty). reflexivity.
Qed.

End HomophoneFacts.

Lemma same_pronunciation_flagged_witness :
  status (homophones_outcome format_two_places sample_analyzer (lit "A-mi"))
  = Status.WARNING.
Proof.
  apply (@same_pronunciation_flagged format_two_places sample_analyzer
           (lit "A-mi") (lit "ami")
           (sample_entry (lit "friend") (lit "Emotion")));
    [now left | discriminate | reflexivity | discriminate].
Defined.

(** ** Pronunciation *)





(** ** Lexicon consistency checker: the domain of a compound *)

Section DomainFacts.

Variable self : ProposalAnalyzer.

Lemma str_in_In x l : str_in x l = true <-> In x l.
Proof.
  unfold str_in. rewrite existsb_exists. split.
  - intros (y & Hy & E). apply str_eqb_eq in E. now subst y.
  - intros H. exists x. split; [exact H | now apply str_eqb_eq].
Qed.

Lemma root_domains_of_In roots root entry :
  In root roots -> lexicon_get (lexicon self) root = Some entry ->
  In (get_or_unknown (entry_domain entry)) (root_domains_of self roots).
Proof.
  induction roots as [|r roots IH]; [intros []|].
  intros [Heq|Hin] Hget; simpl.
  - subst r. rewrite Hget. now left.
  - destruct (lexicon_get (lexicon self) r); [right|]; now apply IH.
Qed.

(** X15.  A new compound whose roots all exist and one of whose roots is
    stored with the proposed domain passes the lexicon check. *)
Theorem compound_with_root_domain_passes word domain root entry :
  has_hyphen word = true ->
  lexicon_get (lexicon self) word = None ->
  (forall r, In r (split_hyphen word) -> in_lexicon self r = true) ->
  In root (split_hyphen word) ->
  lexicon_get (lexicon self) root = Some entry ->
  get_or_unknown (entry_domain entry) = domain ->
  status (lexicon_outcome self word domain) = Status.PASS.
Proof.
  intros Hh Hnew Hall Hin Hget Hdom. unfold lexicon_outcome.
  rewrite Hnew, Hh.
  destruct (@verify_roots_loop_present self (split_hyphen word) [] Hall)
    as (msgs & Heq).
  unfold _verify_compound_roots. rewrite Heq. cbn [negb andb status_is_fail].
  unfold _check_compound_domain_consistency.
  assert (Hstr : str_in domain (root_domains_of self (split_hyphen word))
                 = true).
  { apply str_in_In. rewrite <- Hdom.
    now apply (@root_domains_of_In (split_hyphen word) root entry). }
  rewrite Hstr. reflexivity.
Qed.

End DomainFacts.

Lemma compound_with_root_domain_passes_witness :
  status (lexicon_outcome sample_analyzer (lit "ami-lum") (lit "Nature"))
  = Status.PASS.
Proof.
  apply (@compound_with_root_domain_passes sample_analyzer (lit "ami-lum")
           (lit "Nature") (lit "lum")
           (sample_entry (lit "light") (lit "Nature")));
    try reflexivity.
  - intros r [<-|[<-|[]]]; reflexivity.
  - right; now left.
Defined.

(** ** Loading the lexicon *)

Lemma dict_set_get_same lex word e :
  lexicon_get (dict_set lex word e) word = Some e.
Proof.
  induction lex as [|[w e'] lex IH]; simpl.
  - assert (H : str_eqb word word = true) by now apply str_eqb_eq.
    now rewrite H.
  - destruct (str_eqb w word) eqn:E; simpl; rewrite E; [reflexivity|exact IH].
Qed.

Lemma dict_set_get_other lex word e other :
  other <> word ->
  lexicon_get (dict_set lex word e) other = lexicon_get lex other.
Proof.
  intros Hne. induction lex as [|[w e'] lex IH]; simpl.
  - destruct (str_eqb word other) eqn:E; [|reflexivity].
    apply str_eqb_eq in E. congruence.
  - destruct (str_eqb w word) eqn:E; simpl.
    + apply str_eqb_eq in E. subst w.
      destruct (str_eqb word other) eqn:E2; [|reflexivity].
      apply str_eqb_eq in E2. congruence.
    + destruct (str_eqb w other); [reflexivity | exact IH].
Qed.

Lemma dict_set_keys lex word e :
  forall k, In k (map fst (dict_set lex word e)) <->
            k = word \/ In k (map fst lex).
Proof.
  induction lex as [|[w e'] lex IH]; intros k; simpl;
    [intuition congruence|].
  destruct (str_eqb w word) eqn:E; simpl.
  - apply str_eqb_eq in E. subst w. intuition congruence.
  - rewrite IH. intuition congruence.
Qed.

Lemma dict_set_NoDup lex word e :
  NoDup (map fst lex) -> NoDup (map fst (dict_set lex word e)).
Proof.
  induction lex as [|[w e'] lex IH]; simpl; intros Hnd.
  - constructor; [intros [] | constructor].
  - inversion Hnd as [|? ? Hnotin Hnd']; subst.
    destruct (str_eqb w word) eqn:E; simpl.
    + now constructor.
    + constructor; [|now apply IH].
      rewrite dict_set_keys. intros [->|H]; [|contradiction].
      assert (E' : str_eqb word word = true) by now apply str_eqb_eq.
      congruence.
Qed.

(** The loop body touches the lexicon only by one assignment. *)
Lemma load_item_lexicon state item :
  lexicon (fst (load_item state item)) =
  match item with
  | NotAnObject => lexicon (fst state)
  | Object word entry =>
      if is_empty (get_or_empty word) then lexicon (fst state)
      else dict_set (lexicon (fst state)) (get_or_empty word) entry
  end.
Proof.
  destruct item as [|word entry]; [reflexivity|]. unfold load_item.
  destruct (is_empty (get_or_empty word)); [reflexivity|].
  destruct (is_empty (get_or_empty (entry_domain entry))); reflexivity.
Qed.

Lemma load_item_keys_NoDup state item :
  NoDup (map fst (lexicon (fst state))) ->
  NoDup (map fst (lexicon (fst (load_item state item)))).
Proof.
  intros H. rewrite load_item_lexicon.
  destruct item as [|word entry]; [exact H|].
  destruct (is_empty (get_or_empty word)); [exact H|].
  now apply dict_set_NoDup.
Qed.

Lemma load_item_get state item word :
  lexicon_get (lexicon (fst (load_item state item))) word =
  match item with
  | Object (Some w) e =>
      if negb (is_empty w) && str_eqb w word then Some e
      else lexicon_get (lexicon (fst state)) word
  | _ => lexicon_get (lexicon (fst state)) word
  end.
Proof.
  rewrite load_item_lexicon.
  destruct item as [|[w|] entry]; try reflexivity. cbn [get_or_empty].
  destruct (is_empty w) eqn:Hw; [reflexivity|]. cbn [negb andb].
  destruct (str_eqb w word) eqn:E.
  - apply str_eqb_eq in E. subst word. apply dict_set_get_same.
  - apply dict_set_get_other. intros ->.
    assert (E' : str_eqb w w = true) by now apply str_eqb_eq. congruence.
Qed.

Lemma load_items_get items :
  forall state word,
    word <> [] ->
    lexicon_get (lexicon (fst (fold_left load_item items state))) word =
    match last_entry items word with
    | Some e => Some e
    | None => lexicon_get (lexicon (fst state)) word
    end.
Proof.
  induction items as [|item items IH]; intros state word Hne;
    [reflexivity|].
  cbn [fold_left last_entry]. rewrite (IH _ _ Hne).
  destruct (last_entry items word); [reflexivity|].
  rewrite load_item_get.
  destruct item as [|[w|] e]; try reflexivity.
  destruct (str_eqb w word) eqn:E; [|now rewrite andb_false_r].
  apply str_eqb_eq in E. subst w.
  destruct word; [congruence | reflexivity].
Qed.

Lemma load_items_NoDup items :
  forall state,
    NoDup (map fst (lexicon (fst state))) ->
    NoDup (map fst (lexicon (fst (fold_left load_item items state)))).
Proof.
  induction items as [|item items IH]; intros state H; [exact H|].
  simpl. apply IH. now apply load_item_keys_NoDup.
Qed.

Lemma load_lexicon_data_analyzer data self results :
  snd (fst (load_lexicon_data data self results)) =
  fst (fold_left load_item data (self, 0)).
Proof.
  unfold load_lexicon_data.
  destruct ((snd (fold_left load_item data (self, 0)) =? 0)
            && (0 <? length data)); reflexivity.
Qed.

(** X16.  After loading, the entry found for a non-empty word is the one
    of the last object of the array carrying that word; a word the array
    does not carry keeps the entry it had.  The keys stay distinct. *)
Theorem load_lexicon_last_wins data self results word :
  word <> [] ->
  NoDup (map fst (lexicon self)) ->
  let loaded := snd (fst (load_lexicon_data data self results)) in
  lexicon_get (lexicon loaded) word =
  match last_entry data word with
  | Some e => Some e
  | None => lexicon_get (lexicon self) word
  end /\
  NoDup (map fst (lexicon loaded)).
Proof.
  intros Hne Hnd loaded. subst loaded.
  rewrite load_lexicon_data_analyzer. split.
  - apply (load_items_get data (self, 0) Hne).
  - apply (load_items_NoDup data (self, 0) Hnd).
Qed.

Lemma load_lexicon_last_wins_witness :
  let data :=
    [ Object (Some (lit "sol")) (sample_entry (lit "sun") (lit "Nature"));
      NotAnObject;
      Object (Some (lit "sol")) (sample_entry (lit "star") (lit "Nature")) ] in
  let loaded :=
    snd (fst (load_lexicon_data data sample_analyzer initial_results)) in
  lexicon_get (lexicon loaded) (lit "sol")
  = Some (sample_entry (lit "star") (lit "Nature")) /\
  NoDup (map fst (lexicon loaded)).
Proof.
  apply (@load_lexicon_last_wins
           [ Object (Some (lit "sol")) (sample_entry (lit "sun") (lit "Nature"));
             NotAnObject;
             Object (Some (lit "sol"))
               (sample_entry (lit "star") (lit "Nature")) ]
           sample_analyzer initial_results (lit "sol")).
  - discriminate.
  - repeat constructor; simpl; intuition discriminate.
Defined.










(** ** Field sanitizer *)

Lemma escape_char_absent ch text :
  char_in ch text = false -> escape_char ch text = text.
Proof.
  unfold char_in, escape_char. induction text as [|c text IH];
    [reflexivity|]. cbn [existsb flat_map]. intros H.
  apply orb_false_iff in H as [Hc Ht]. unfold char_eqb in *.
  rewrite N.eqb_sym, Hc, (IH Ht). reflexivity.
Qed.

Lemma escape_step ch text :
  (if char_in ch text then escape_char ch text else text)
  = escape_char ch text.
Proof.
  destruct (char_in ch text) eqn:E; [reflexivity|].
  symmetry. now apply escape_char_absent.
Qed.

(** Escaping the characters of a list one after the other amounts to one
    pass that puts a backslash before each of them. *)
Lemma escape_fold (D : list char) :
  NoDup D -> ~ In backslash D ->
  forall text,
    fold_left
      (fun text ch => if char_in ch text then escape_char ch text else text)
      D text
    = flat_map (fun c => if char_in c D then [backslash; c] else [c]) text.
Proof.
  induction D as [|d D IH]; intros Hnd Hb text.
  - simpl. induction text as [|c text IHt]; [reflexivity|].
    simpl. f_equal. exact IHt.
  - inversion Hnd as [|? ? Hd Hnd']; subst.
    cbn [fold_left]. rewrite escape_step.
    rewrite IH by (try assumption; intros H; apply Hb; now right).
    unfold escape_char.
    assert (H1 : char_in backslash D = false).
    { unfold char_in. destruct (existsb (char_eqb backslash) D) eqn:E;
        [|reflexivity].
      apply existsb_exists in E as (x & Hx & Hxe).
      apply N.eqb_eq in Hxe. subst x. exfalso. apply Hb. now right. }
    assert (H2 : char_in d D = false).
    { unfold char_in. destruct (existsb (char_eqb d) D) eqn:E;
        [|reflexivity].
      apply existsb_exists in E as (x & Hx & Hxe).
      apply N.eqb_eq in Hxe. subst x. contradiction. }
    assert (Hpoint : forall c,
              flat_map
                (fun c0 => if char_in c0 D then [backslash; c0] else [c0])
                (if char_eqb c d then [backslash; c] else [c])
              = if char_in c (d :: D) then [backslash; c] else [c]).
    { intros c. unfold char_in at 2. cbn [existsb]. fold (char_in c D).
      unfold char_eqb. destruct (N.eqb_spec c d) as [->|Hcd].
      - cbn [flat_map orb]. rewrite H1, H2. reflexivity.
      - cbn [flat_map orb]. now rewrite app_nil_r. }
    induction text as [|c text IHt]; [reflexivity|].
    cbn [flat_map]. rewrite flat_map_app, IHt, Hpoint. reflexivity.
Qed.

Lemma escape_dangerous_pass text :
  escape_dangerous text =
  flat_map
    (fun c => if char_in c dangerous_chars then [backslash; c] else [c]) text.
Proof.
  unfold escape_dangerous. apply escape_fold.
  - repeat constructor; simpl; intuition discriminate.
  - simpl. intuition discriminate.
Qed.

Lemma char_in_In c l : char_in c l = true <-> In c l.
Proof.
  unfold char_in. rewrite existsb_exists. split.
  - intros (x & Hx & E). apply N.eqb_eq in E. now subst x.
  - intros H. exists c. split; [exact H | apply N.eqb_refl].
Qed.

Lemma all_escaped_pass text :
  all_escaped
    (flat_map
       (fun c => if char_in c dangerous_chars then [backslash; c] else [c])
       text).
Proof.
  induction text as [|x text IH]; intros before c after Heq Hc.
  - destruct before; discriminate.
  - cbn [flat_map] in Heq. destruct (char_in x dangerous_chars) eqn:Ex.
    + destruct before as [|b0 [|b1 before]]; cbn [app] in Heq.
      * injection Heq as <- _. exfalso. simpl in Hc. intuition discriminate.
      * injection Heq as <- <- _. exists []. reflexivity.
      * injection Heq as <- <- Heq.
        destruct (IH before c after Heq Hc) as [b' ->].
        exists (backslash :: x :: b'). reflexivity.
    + destruct before as [|b0 before]; cbn [app] in Heq.
      * injection Heq as <- _. apply char_in_In in Hc. congruence.
      * injection Heq as <- Heq.
        destruct (IH before c after Heq Hc) as [b' ->].
        exists (x :: b'). reflexivity.
Qed.

Lemma all_escaped_prefix a b : all_escaped (a ++ b) -> all_escaped a.
Proof.
  intros H before c after Heq Hc.
  apply (H before c (after ++ b)); [|exact Hc].
  rewrite Heq, <- app_assoc. reflexivity.
Qed.

Lemma all_escaped_app_plain a b :
  all_escaped a -> (forall c, In c b -> ~ In c dangerous_chars) ->
  all_escaped (a ++ b).
Proof.
  intros Ha Hb before c after Heq Hc.
  apply app_eq_app in Heq as [l [[Ha' Hb']|[Hbefore Hb']]].
  - destruct l as [|x l].
    + rewrite app_nil_r in Ha'. subst a. simpl in Hb'.
      exfalso. apply (Hb c); [rewrite <- Hb'; now left | exact Hc].
    + injection Hb' as <- ->.
      apply (Ha before c l); [exact Ha' | exact Hc].
  - exfalso. apply (Hb c); [|exact Hc].
    rewrite Hb'. apply in_or_app. right. now left.
Qed.

Lemma lstrip_split s :
  exists ws, s = ws ++ lstrip s /\ Forall (fun c => is_space c = true) ws.
Proof.
  induction s as [|c s (ws & Heq & Hws)]; [exists []; auto|]. simpl.
  destruct (is_space c) eqn:Ec.
  - exists (c :: ws). split; [simpl; now f_equal | now constructor].
  - exists []. auto.
Qed.

Lemma strip_split s :
  exists ws1 ws2,
    s = ws1 ++ strip s ++ ws2 /\
    Forall (fun c => is_space c = true) ws1.
Proof.
  destruct (lstrip_split s) as (ws1 & H1 & Hws1).
  destruct (lstrip_split (rev (lstrip s))) as (ws2 & H2 & _).
  exists ws1, (rev ws2). split; [|exact Hws1].
  rewrite H1 at 1. f_equal. unfold strip, rstrip.
  rewrite <- rev_app_distr, <- H2, rev_involutive. reflexivity.
Qed.

Lemma all_escaped_strip s : all_escaped s -> all_escaped (strip s).
Proof.
  intros H. destruct (strip_split s) as (ws1 & ws2 & Heq & Hws).
  rewrite Heq, app_assoc in H. apply all_escaped_prefix in H.
  intros before c after Hs Hc.
  destruct (H (ws1 ++ before) c after) as [b' Hb'];
    [rewrite Hs, <- app_assoc; reflexivity | exact Hc |].
  destruct (rev before) as [|x r] eqn:Er.
  - apply (f_equal (@rev char)) in Er. rewrite rev_involutive in Er.
    simpl in Er. subst before. rewrite app_nil_r in Hb'. subst ws1.
    rewrite Forall_forall in Hws.
    specialize (Hws backslash ltac:(apply in_or_app; right; now left)).
    discriminate.
  - apply (f_equal (@rev char)) in Er. rewrite rev_involutive in Er.
    simpl in Er. subst before. rewrite app_assoc in Hb'.
    apply app_inj_tail in Hb' as [_ ->]. eauto.
Qed.

(** X19.  Whatever the input, in the sanitized text every backtick,
    asterisk, underscore, bracket, parenthesis, exclamation mark and angle
    bracket comes right after a backslash; hence the text holds neither an
    HTML comment opener nor a [<script>] tag. *)
Theorem sanitized_text_is_escaped sub_script_tags sub_html_comments text :
  let sanitized := _sanitize_input sub_script_tags sub_html_comments text in
  all_escaped sanitized /\
  (forall before after, sanitized <> before ++ lit "<!--" ++ after) /\
  (forall before after, sanitized <> before ++ lit "<script>" ++ after).
Proof.
  intros sanitized.
  assert (Hesc : all_escaped sanitized).
  { subst sanitized. unfold _sanitize_input.
    destruct (is_empty text) eqn:He.
    { apply is_empty_nil in He. subst text.
      intros before c after Heq. destruct before; discriminate. }
    apply all_escaped_strip. rewrite escape_dangerous_pass.
    set (escaped := flat_map _ _).
    assert (H : all_escaped escaped) by apply all_escaped_pass.
    destruct (1000 <? length escaped); [|exact H].
    apply all_escaped_app_plain.
    - apply (@all_escaped_prefix _ (skipn 1000 escaped)).
      now rewrite firstn_skipn.
    - intros c Hc. simpl in Hc. simpl. intuition congruence. }
  split; [exact Hesc|]. split; intros before after Heq.
  - destruct (Hesc (before ++ [60%N]) 33%N (lit "--" ++ after)) as [b' Hb'].
    + rewrite Heq, <- app_assoc. reflexivity.
    + simpl. tauto.
    + apply app_inj_tail in Hb' as [_ Hb']. discriminate.
  - destruct (Hesc (before ++ lit "<script") 62%N after) as [b' Hb'].
    + rewrite Heq, <- app_assoc. reflexivity.
    + simpl. tauto.
    + change (lit "<script") with (lit "<scrip" ++ [116%N]) in Hb'.
      rewrite app_assoc in Hb'.
      apply app_inj_tail in Hb' as [_ Hb']. discriminate.
Qed.

Lemma lstrip_fixed s :
  (forall c r, s = c :: r -> is_space c = false) -> lstrip s = s.
Proof.
  destruct s as [|c r]; [reflexivity|]. intros H. simpl.
  now rewrite (H c r eq_refl).
Qed.

Lemma lstrip_idem s : lstrip (lstrip s) = lstrip s.
Proof. apply lstrip_fixed. intros c r. apply lstrip_head. Qed.

Lemma lstrip_length s : length (lstrip s) <= length s.
Proof.
  induction s as [|c s IH]; [reflexivity|]. simpl.
  destruct (is_space c); simpl; lia.
Qed.

Lemma strip_length s : length (strip s) <= length s.
Proof.
  unfold strip, rstrip. rewrite length_rev.
  pose proof (lstrip_length (rev (lstrip s))) as H1.
  pose proof (lstrip_length s) as H2. rewrite length_rev in H1. lia.
Qed.

Lemma strip_idem s : strip (strip s) = strip s.
Proof.
  assert (Hl : lstrip (strip s) = strip s).
  { apply lstrip_fixed. intros c r Heq.
    destruct (lstrip_split (rev (lstrip s))) as (ws & Hws & _).
    unfold strip, rstrip in Heq.
    destruct (lstrip s) as [|x m] eqn:Em.
    - simpl in Heq. discriminate.
    - assert (Hx : is_space x = false) by (apply (lstrip_head s Em)).
      apply (f_equal (@rev char)) in Hws. rewrite rev_involutive in Hws.
      rewrite rev_app_distr, Heq in Hws.
      injection Hws as -> _. exact Hx. }
  unfold strip at 1. rewrite Hl. unfold strip, rstrip.
  now rewrite rev_involutive, lstrip_idem.
Qed.

(** X20.  The sanitized text is at most 1003 characters long, carries no
    white space at either end (so [analyze_proposal] reads it unchanged),
    and is empty for an empty input. *)
Theorem sanitized_text_is_bounded sub_script_tags sub_html_comments text :
  let sanitized := _sanitize_input sub_script_tags sub_html_comments text in
  length sanitized <= 1003 /\ strip sanitized = sanitized /\
  _sanitize_input sub_script_tags sub_html_comments [] = [].
Proof.
  intros sanitized. subst sanitized. unfold _sanitize_input.
  split; [|split; [|reflexivity]].
  - destruct (is_empty text) eqn:He.
    { apply is_empty_nil in He. subst text. simpl. lia. }
    set (escaped := escape_dangerous _).
    eapply Nat.le_trans; [apply strip_length|].
    destruct (Nat.ltb_spec 1000 (length escaped)); [|lia].
    rewrite length_app, length_firstn.
    change (length (lit "...")) with 3. lia.
  - destruct (is_empty text) eqn:He.
    { apply is_empty_nil in He. subst text. reflexivity. }
    apply strip_idem.
Qed.

(** ** Phonotactic validator: consonant runs *)

Section ConsonantRuns.

Variable set_iteration : list char -> list char.
Variable self : ProposalAnalyzer.

(** What the inner loop of the cluster scan returns: the end of the run of
    consonants that starts at [i]. *)
Lemma skip_consonants_run part fuel :
  forall i,
    length part - i <= fuel ->
    let e := skip_consonants self fuel part i in
    i <= e /\ e <= Nat.max i (length part) /\
    (forall j, i <= j < e -> is_consonant self (char_at part j) = true) /\
    (e < length part -> is_consonant self (char_at part e) = false).
Proof.
  induction fuel as [|fuel IH]; intros i Hfuel; cbn [skip_consonants].
  - repeat split; try lia.
  - destruct (Nat.ltb_spec i (length part)) as [Hi|Hi]; cbn [andb].
    + destruct (is_consonant self (char_at part i)) eqn:Hc.
      * assert (Hf : length part - (i + 1) <= fuel) by lia.
        destruct (IH (i + 1) Hf) as (H1 & H2 & H3 & H4).
        repeat split; try lia; [|exact H4].
        intros j Hj. destruct (Nat.eq_dec j i) as [->|Hne]; [exact Hc|].
        apply H3. lia.
      * repeat split; try lia. intros _. exact Hc.
    + repeat split; try lia.
Qed.

Lemma slice_pair part i :
  i + 2 <= length part ->
  slice part i (i + 2) = [char_at part i; char_at part (i + 1)].
Proof.
  unfold slice, char_at. replace (i + 2 - i) with 2 by lia.
  revert i. induction part as [|c part IH]; intros i Hlen;
    [simpl in Hlen; lia|].
  destruct i as [|i].
  - destruct part as [|d part]; [simpl in Hlen; lia | reflexivity].
  - simpl in Hlen. cbn [skipn nth Nat.add]. apply IH. lia.
Qed.

Lemma slice_length part i e :
  i <= e -> e <= length part -> length (slice part i e) = e - i.
Proof.
  intros H1 H2. unfold slice. rewrite length_firstn, length_skipn. lia.
Qed.

(** Every way the scan of a part returns is a refusal. *)
Lemma cluster_scan_refuses part_idx part fuel :
  forall i r,
    cluster_scan self fuel part_idx part i = Some r -> fst (fst r) = false.
Proof.
  induction fuel as [|fuel IH]; intros i r; simpl; [discriminate|].
  repeat match goal with
         | |- context [if ?c then _ else _] => destruct c
         end;
    try discriminate; try (intros H; injection H as <-; reflexivity);
    apply IH.
Qed.

(** The scan, started outside any run and not after position [k], does
    not get past two consonants at [k] and [k + 1] that are followed by a
    third or are not a permitted cluster. *)
Lemma cluster_scan_stops part_idx part k :
  k + 1 < length part ->
  is_consonant self (char_at part k) = true ->
  is_consonant self (char_at part (k + 1)) = true ->
  (is_permitted self [char_at part k; char_at part (k + 1)] = false \/
   (k + 2 < length part /\
    is_consonant self (char_at part (k + 2)) = true)) ->
  forall fuel i,
    length part - i <= fuel -> i <= k ->
    (i = 0 \/ is_consonant self (char_at part (i - 1)) = false \/
     is_consonant self (char_at part i) = false) ->
    cluster_scan self fuel part_idx part i <> None.
Proof.
  intros Hk Hc1 Hc2 Hbad.
  induction fuel as [|fuel IH]; intros i Hfuel Hik Hout; [lia|].
  cbn [cluster_scan].
  destruct (Nat.ltb_spec i (length part)) as [Hi|]; [|lia].
  destruct (is_consonant self (char_at part i)) eqn:Hci.
  - assert (Hf : length part - i <= length part) by lia.
    destruct (@skip_consonants_run part (length part) i Hf)
      as (He1 & He2 & Hrun & Hend).
    set (e := skip_consonants self (length part) part i) in *.
    assert (Hgt : i < e).
    { apply (@skip_consonants_gt self part i Hi Hci). }
    assert (Hlen : e <= length part) by lia.
    destruct (Nat.le_gt_cases e k) as [Hek|Hek].
    + (* the run ends before [k]: the scan goes on from its end *)
      assert (Hnext : cluster_scan self fuel part_idx part e <> None).
      { apply IH; [lia | exact Hek |].
        right; right. apply Hend. lia. }
      repeat match goal with
             | |- context [if ?b then _ else _] => destruct b
             end; try discriminate; exact Hnext.
    + (* the run holds [k]: it is too long or not permitted *)
      assert (Hk1 : k + 1 < e).
      { destruct (Nat.eq_dec e (k + 1)) as [E|]; [|lia].
        specialize (Hend ltac:(lia)). rewrite E in Hend. congruence. }
      assert (Hstart : i < k -> 2 < e - i) by lia.
      destruct (Nat.ltb_spec 1 (e - i)) as [_|]; [|lia].
      rewrite (@slice_length part i e He1 Hlen).
      destruct (Nat.ltb_spec 2 (e - i)) as [_|Hshort]; [discriminate|].
      assert (Hi' : i = k) by lia. subst i.
      assert (He : e = k + 2) by lia.
      destruct Hbad as [Hperm|[Hk2 Hc3]].
      * assert (Hk2 : k + 2 <= length part) by lia.
        rewrite He, (@slice_pair part k Hk2), Hperm. discriminate.
      * exfalso. specialize (Hend ltac:(lia)). rewrite He in Hend.
        congruence.
  - apply IH; [lia | | right; left].
    + destruct (Nat.eq_dec i k) as [->|]; [congruence | lia].
    + replace (i + 1 - 1) with i by lia. exact Hci.
Qed.

Lemma cluster_parts_loop_refuses pairs part_idx part :
  In (part_idx, part) pairs ->
  cluster_scan self (length (lower part)) part_idx (lower part) 0 <> None ->
  fst (fst (cluster_parts_loop self pairs)) = false.
Proof.
  induction pairs as [|[idx p] pairs IH]; [intros []|].
  intros Hin Hscan. cbn [cluster_parts_loop].
  destruct (cluster_scan self (length (lower p)) idx (lower p) 0)
    as [r|] eqn:E.
  - apply (@cluster_scan_refuses idx (lower p) (length (lower p)) 0 r E).
  - destruct Hin as [Heq|Hin]; [|now apply IH].
    injection Heq as -> ->. contradiction.
Qed.

Lemma enumerate_from_In {A} (l : list A) x :
  In x l -> forall start, exists idx, In (idx, x) (enumerate_from start l).
Proof.
  unfold enumerate_from. induction l as [|y l IH]; [intros []|].
  intros [->|Hin] start; simpl.
  - exists start. now left.
  - destruct (IH Hin (S start)) as [idx Hidx]. exists idx. now right.
Qed.

(** X21.  If some part of the word has, in lower case, two consonants in a
    row that are not a permitted cluster, or three consonants in a row,
    the cluster validator refuses the word and the phonotactic check ends
    in FAIL. *)
Theorem bad_cluster_fails word part k :
  In part (split_hyphen word) ->
  k + 1 < length (lower part) ->
  is_consonant self (char_at (lower part) k) = true ->
  is_consonant self (char_at (lower part) (k + 1)) = true ->
  (is_permitted self
     [char_at (lower part) k; char_at (lower part) (k + 1)] = false \/
   (k + 2 < length (lower part) /\
    is_consonant self (char_at (lower part) (k + 2)) = true)) ->
  fst (fst (_validate_consonant_clusters self word)) = false /\
  status (phonotactics_outcome set_iteration self word) = Status.FAIL.
Proof.
  intros Hin Hk Hc1 Hc2 Hbad.
  assert (Hclus : fst (fst (_validate_consonant_clusters self word)) = false).
  { unfold _validate_consonant_clusters, enumerate.
    destruct (@enumerate_from_In pystr (split_hyphen word) part Hin 0)
      as [idx Hidx].
    apply (@cluster_parts_loop_refuses
             (enumerate_from 0 (split_hyphen word)) idx part Hidx).
    apply (@cluster_scan_stops idx (lower part) k Hk Hc1 Hc2 Hbad);
      [lia | lia | now left]. }
  split; [exact Hclus|].
  unfold phonotactics_outcome.
  pose proof (validate_consonant_clusters_flag self word) as Hflag.
  destruct (_validate_consonant_clusters self word) as [[ok msg] w].
  simpl in Hclus, Hflag. subst ok w.
  repeat match goal with
         | |- context [if negb (is_empty ?l) then _ else _] =>
             destruct (negb (is_empty l))
         | |- context [if has_hyphen ?w then _ else _] =>
             destruct (has_hyphen w)
         | |- context [if negb (fst ?r) then _ else _] =>
             destruct (negb (fst r))
         end; reflexivity.
Qed.

End ConsonantRuns.

Lemma bad_cluster_fails_witness :
  fst (fst (_validate_consonant_clusters sample_analyzer (lit "ami-amka")))
  = false /\
  status (phonotactics_outcome sample_set_iteration sample_analyzer
            (lit "ami-amka")) = Status.FAIL.
Proof.
  apply (@bad_cluster_fails sample_set_iteration sample_analyzer
           (lit "ami-amka") (lit "amka") 1).
  - right; now left.
  - vm_compute. lia.
  - reflexivity.
  - reflexivity.
  - left. reflexivity.
Defined.

(** ** Which checks can reject *)

(** X22.  A proposal is rejected exactly when the phonotactic, the lexicon
    or the semantic check ends in FAIL; the homophone check, which never
    fails, cannot reject a proposal on its own. *)
Theorem reject_iff_some_fail set_iteration format_2f self fields results :
  let run := analyze_proposal set_iteration format_2f self fields results in
  recommendation run = Recommendation.REJECT <->
  status (phonotactics run) = Status.FAIL \/
  status (lexicon_check run) = Status.FAIL \/
  status (semantics run) = Status.FAIL.
Proof.
  intros run.
  destruct (analyze_proposal_cases set_iteration format_2f self fields results)
    as [[message Heq]|(He & Hlen & Hm & _)].
  - subst run. rewrite Heq. simpl.
    split; [discriminate | intros [H|[H|H]]; discriminate].
  - apply (@analyze_proposal_checked set_iteration format_2f self fields
             results He Hlen Hm).
Qed.
